(** * Import rewriter of create-eth-codemod (migrate-scaffold-ui-imports.ts)

    A shallow embedding of [transformContent] and of the functions it calls
    ([analyzeImportStatement], [determineTransform], [parseNamedImports],
    [buildNamedImport], [extractDefaultImport]), together with the part of the
    JavaScript string and regular-expression semantics they rely on.

    JavaScript strings are sequences of UTF-16 code units; they are modelled
    as lists of [N].  The regular expressions of the source are values of an
    abstract syntax, run by a backtracking matcher that returns every way to
    match in the order in which a backtracking engine tries them; the head of
    that list is the match JavaScript reports. *)

From Stdlib Require Import String Ascii List NArith Arith Bool Lia.
Import ListNotations.

Set Implicit Arguments.

(* ================================================================== *)
(** ** JavaScript strings *)
(* ================================================================== *)

Module JS.

(** A code unit is a number below 65536; a string is a list of them. *)
Abbreviation codeunit := N (only parsing).
Abbreviation jstring := (list N) (only parsing).

(** A literal of the source, written as a Rocq string of ASCII characters. *)
Definition js (s : string) : jstring :=
  map N_of_ascii (list_ascii_of_string s).

(** The characters the source names that cannot be written inside [js]. *)
Definition dquote : codeunit := 34%N.
Definition newline : codeunit := 10%N.
Definition arrow : codeunit := 8594%N.      (* U+2192, the arrow of the summary lines *)

(** A text given by its lines, each ended by a line feed. *)
Definition jsLines (ls : list string) : jstring :=
  concat (map (fun l => js l ++ [newline]) ls).

(** [a === b] on strings. *)
Fixpoint strEq (a b : jstring) : bool :=
  match a, b with
  | [], [] => true
  | x :: a', y :: b' => N.eqb x y && strEq a' b'
  | _, _ => false
  end.

(** Truthiness of a string: the empty string is falsy. *)
Definition truthy (s : jstring) : bool :=
  match s with
  | [] => false
  | _ :: _ => true
  end.

(** [s.startsWith(p)] *)
Fixpoint startsWith (p s : jstring) : bool :=
  match p, s with
  | [], _ => true
  | x :: p', y :: s' => N.eqb x y && startsWith p' s'
  | _ :: _, [] => false
  end.

(** [s.includes(p)] *)
Fixpoint includes (p s : jstring) : bool :=
  match s with
  | [] => startsWith p []
  | _ :: s' => startsWith p s || includes p s'
  end.

(** [s.indexOf(p)], [None] for -1. *)
Fixpoint indexOf (p s : jstring) : option nat :=
  if startsWith p s then Some 0
  else match s with
       | [] => None
       | _ :: s' => option_map S (indexOf p s')
       end.

(** [s.slice(0, n)] and [s.slice(n)] for [0 <= n]. *)
Definition sliceTo (n : nat) (s : jstring) : jstring := firstn n s.
Definition sliceFrom (n : nat) (s : jstring) : jstring := skipn n s.

(** WhiteSpace and LineTerminator code units: the class [\s] of regular
    expressions and the characters [trim] strips. *)
Definition isSpace (c : codeunit) : bool :=
  ((9 <=? c) && (c <=? 13) || (c =? 32) || (c =? 160) || (c =? 5760)
   || (8192 <=? c) && (c <=? 8202) || (c =? 8232) || (c =? 8233)
   || (c =? 8239) || (c =? 8287) || (c =? 12288) || (c =? 65279))%N.

Fixpoint trimStart (s : jstring) : jstring :=
  match s with
  | c :: s' => if isSpace c then trimStart s' else s
  | [] => []
  end.

Definition trimEnd (s : jstring) : jstring := rev (trimStart (rev s)).

(** [s.trim()] *)
Definition trim (s : jstring) : jstring := trimEnd (trimStart s).

(** [GetSubstitution] for a replacement whose pattern is a string: there are
    no captures, so only [$$], [$&], [$`] and [$'] are replaced and every
    other [$] stands for itself. *)
Fixpoint getSubstitution (matched preceding following template : jstring) : jstring :=
  match template with
  | [] => []
  | c :: t =>
      if (c =? 36)%N then
        match t with
        | d :: t' =>
            if (d =? 36)%N then 36%N :: getSubstitution matched preceding following t'
            else if (d =? 38)%N then matched ++ getSubstitution matched preceding following t'
            else if (d =? 96)%N then preceding ++ getSubstitution matched preceding following t'
            else if (d =? 39)%N then following ++ getSubstitution matched preceding following t'
            else c :: getSubstitution matched preceding following t
        | [] => [c]
        end
      else c :: getSubstitution matched preceding following t
  end.

(** [s.replace(pattern, replacement)] with a string pattern: the first
    occurrence only. *)
Definition replace (s pattern replacement : jstring) : jstring :=
  match indexOf pattern s with
  | None => s
  | Some i =>
      let preceding := firstn i s in
      let following := skipn (i + length pattern) s in
      preceding ++ getSubstitution pattern preceding following replacement ++ following
  end.

(** [s.split(sep).join(by)] for a non-empty [sep]: every occurrence of [sep],
    found from left to right without overlap, becomes [by].  [skip] counts
    the code units of an occurrence still to be dropped. *)
Fixpoint splitJoinFrom (sep by_ : jstring) (skip : nat) (s : jstring) : jstring :=
  match s with
  | [] => []
  | c :: s' =>
      match skip with
      | S k => splitJoinFrom sep by_ k s'
      | O =>
          if startsWith sep s
          then by_ ++ splitJoinFrom sep by_ (length sep - 1) s'
          else c :: splitJoinFrom sep by_ 0 s'
      end
  end.

(** With the empty separator [split] cuts between all code units. *)
Fixpoint intersperse (by_ : jstring) (s : jstring) : jstring :=
  match s with
  | [] => []
  | [c] => [c]
  | c :: s' => c :: by_ ++ intersperse by_ s'
  end.

Definition splitJoin (sep by_ s : jstring) : jstring :=
  match sep with
  | [] => intersperse by_ s
  | _ :: _ => splitJoinFrom sep by_ 0 s
  end.

(** String conversion of a value that may be [undefined], as a template
    literal or [+] performs it. *)
Definition toStr (v : option jstring) : jstring :=
  match v with
  | Some s => s
  | None => js "undefined"
  end.

(** The property names every plain object inherits from [Object.prototype]:
    a lookup [obj[key]] finds them when [obj] has no own property [key]. *)
Definition OBJECT_PROTOTYPE_KEYS : list jstring :=
  map js ["constructor"; "hasOwnProperty"; "isPrototypeOf";
          "propertyIsEnumerable"; "toLocaleString"; "toString"; "valueOf";
          "__proto__"; "__defineGetter__"; "__defineSetter__";
          "__lookupGetter__"; "__lookupSetter__"]%string.

End JS.

Import JS.

(* ================================================================== *)
(** ** Regular expressions *)
(* ================================================================== *)

Module Regex.

(** The fragment the source uses: literals, character classes, sequence,
    ordered alternative, greedy and lazy repetition of a class, and capture
    groups.  No regular expression of the source repeats anything but a
    class. *)
Inductive regex : Type :=
| REps
| RLit (l : jstring)
| RCls (p : codeunit -> bool)
| RSeq (r1 r2 : regex)
| RAlt (r1 r2 : regex)
| RStar (greedy : bool) (p : codeunit -> bool)
| RGroup (n : nat) (r : regex).

Definition RPlus (p : codeunit -> bool) : regex := RSeq (RCls p) (RStar true p).
Definition ROpt (r : regex) : regex := RAlt r REps.

Fixpoint RSeqs (rs : list regex) : regex :=
  match rs with
  | [] => REps
  | [r] => r
  | r :: rs' => RSeq r (RSeqs rs')
  end.

Definition captures := list (nat * jstring).

(** The remainders after [p*], longest repetition first. *)
Fixpoint starGreedy (p : codeunit -> bool) (s : jstring) : list jstring :=
  match s with
  | c :: s' => if p c then starGreedy p s' ++ [s] else [s]
  | [] => [[]]
  end.

(** The remainders after [p*?], shortest repetition first. *)
Fixpoint starLazy (p : codeunit -> bool) (s : jstring) : list jstring :=
  match s with
  | c :: s' => if p c then s :: starLazy p s' else [s]
  | [] => [[]]
  end.

(** All the ways [r] matches a prefix of [s], in backtracking order: each
    is the remainder of [s] and the captures made. *)
Fixpoint run (r : regex) (s : jstring) (cs : captures) : list (jstring * captures) :=
  match r with
  | REps => [(s, cs)]
  | RLit l => if startsWith l s then [(skipn (length l) s, cs)] else []
  | RCls p =>
      match s with
      | c :: s' => if p c then [(s', cs)] else []
      | [] => []
      end
  | RSeq r1 r2 => flat_map (fun x => run r2 (fst x) (snd x)) (run r1 s cs)
  | RAlt r1 r2 => run r1 s cs ++ run r2 s cs
  | RStar g p => map (fun s' => (s', cs)) (if g then starGreedy p s else starLazy p s)
  | RGroup n r1 =>
      map (fun x => (fst x, (n, firstn (length s - length (fst x)) s) :: snd x))
          (run r1 s cs)
  end.

(** A match as JavaScript reports it: [index], the text [m[0]] and the
    groups. *)
Record rmatch := mkMatch {
  index : nat;
  text : jstring;
  groups : captures
}.

Fixpoint assoc (n : nat) (cs : captures) : option jstring :=
  match cs with
  | [] => None
  | (k, v) :: cs' => if Nat.eqb k n then Some v else assoc n cs'
  end.

(** [m[n]]; every group of the source's regular expressions takes part in
    every match, so the value is never [undefined]. *)
Definition group (n : nat) (m : rmatch) : jstring :=
  match assoc n (groups m) with
  | Some v => v
  | None => []
  end.

(** The match starting exactly at the head of [s], at position [i]. *)
Definition execAt (r : regex) (i : nat) (s : jstring) : option rmatch :=
  match run r s [] with
  | (rest, cs) :: _ => Some (mkMatch i (firstn (length s - length rest) s) cs)
  | [] => None
  end.

(** [s.match(r)] for [r] without the [g] flag: the leftmost match. *)
Fixpoint matchFrom (r : regex) (i : nat) (s : jstring) : option rmatch :=
  match execAt r i s with
  | Some m => Some m
  | None =>
      match s with
      | [] => None
      | _ :: s' => matchFrom r (S i) s'
      end
  end.

Definition match_ (r : regex) (s : jstring) : option rmatch := matchFrom r 0 s.

(** [Array.from(s.matchAll(r))], and the matches of a loop over [r.exec(s)],
    for [r] with the [g] flag: after a match the search resumes where it
    ended, one code unit later if the match was empty.  [skip] counts the
    code units of the last match still to be passed. *)
Fixpoint matchAllFrom (r : regex) (i skip : nat) (s : jstring) : list rmatch :=
  match skip with
  | S k =>
      match s with
      | [] => []
      | _ :: s' => matchAllFrom r (S i) k s'
      end
  | O =>
      match execAt r i s with
      | Some m =>
          m :: match s with
               | [] => []
               | _ :: s' => matchAllFrom r (S i) (length (text m) - 1) s'
               end
      | None =>
          match s with
          | [] => []
          | _ :: s' => matchAllFrom r (S i) 0 s'
          end
      end
  end.

Definition matchAll (r : regex) (s : jstring) : list rmatch := matchAllFrom r 0 0 s.

(** [s.replace(r, by)] for [r] with the [g] flag and a replacement without
    [$]: the text between the matches is kept. *)
Fixpoint spliceFrom (by_ : jstring) (ms : list rmatch) (cursor : nat) (s : jstring) : jstring :=
  match ms with
  | [] => skipn cursor s
  | m :: ms' =>
      firstn (index m - cursor) (skipn cursor s) ++ by_
      ++ spliceFrom by_ ms' (index m + length (text m)) s
  end.

Definition replaceAll (r : regex) (by_ s : jstring) : jstring :=
  spliceFrom by_ (matchAll r s) 0 s.

(** Character classes of the source. *)
Definition anyChar (_ : codeunit) : bool := true.
Definition isQuote (c : codeunit) : bool := ((c =? 34) || (c =? 39))%N.
Definition notQuote (c : codeunit) : bool := negb (isQuote c).
Definition notComma (c : codeunit) : bool := negb (c =? 44)%N.
Definition isDigit (c : codeunit) : bool := ((48 <=? c) && (c <=? 57))%N.
Definition isAlpha (c : codeunit) : bool :=
  ((65 <=? c) && (c <=? 90) || (97 <=? c) && (c <=? 122))%N.
(** [[A-Za-z_$]] *)
Definition isIdentStart (c : codeunit) : bool :=
  isAlpha c || (c =? 95)%N || (c =? 36)%N.
(** [[\w$]] *)
Definition isIdentPart (c : codeunit) : bool :=
  isAlpha c || isDigit c || (c =? 95)%N || (c =? 36)%N.

End Regex.

Import Regex.

(* ================================================================== *)
(** ** The codemod *)
(* ================================================================== *)

Record SpecifierRenameRule := mkRule {
  newName : jstring;
  keepAlias : option bool
}.

(** [Record<string, SpecifierRenameRule>]: the own properties of the object,
    in the order they are written. *)
Definition RenameMap := list (jstring * SpecifierRenameRule).

Record ImportSpec := mkSpec {
  isType : bool;
  imported : jstring;
  alias : option jstring
}.

Record NamedImportEntry := mkEntry {
  raw : jstring;
  spec : option ImportSpec;
  leadingWhitespace : option jstring;
  trailingWhitespace : option jstring;
  comma : option jstring
}.

Module Parsed.
Record NamedImportParseResult := mk {
  entries : list NamedImportEntry;
  specifiers : list jstring
}.
End Parsed.

Record ImportTransform := mkTransform {
  newPath : jstring;
  renameSpecifiers : option RenameMap;
  description : jstring
}.

Module Analysis.
Record ImportAnalysis := mk {
  original : jstring;
  updated : jstring;
  specifiers : list jstring;
  defaultImport : option jstring;
  appliedTransform : option ImportTransform
}.
End Analysis.

Record TransformResult := mkResult {
  updatedContent : jstring;
  summary : list jstring
}.

Definition COMPONENT_TARGET : jstring := js "@scaffold-ui/components".

Definition LEGACY_COMPONENT_SPECIFIERS : list jstring :=
  map js ["Address"; "AddressInput"; "Balance"; "EtherInput"; "InputBase";
          "BaseInput"]%string.

Definition COMPONENT_SPECIFIER_RENAMES : RenameMap :=
  [(js "InputBase", mkRule (js "BaseInput") (Some true))].

Definition RAW_PATH_REPLACEMENTS : list (jstring * jstring) :=
  [(js "~~/components/scaffold-eth/Input/AddressInput", COMPONENT_TARGET);
   (js "~~/components/scaffold-eth/Input/EtherInput", COMPONENT_TARGET);
   (js "~~/components/scaffold-eth/Input", COMPONENT_TARGET);
   (js "~~/components/scaffold-eth/Address/Address", COMPONENT_TARGET);
   (js "~~/components/scaffold-eth/Address", COMPONENT_TARGET)].

(** [/import\s+[\s\S]*?from\s+[\x22']([^\x22']+)[\x22'];?/g], writing [\x22]
    for the double quote *)
Definition IMPORT_REGEX : regex :=
  RSeqs [RLit (js "import"); RPlus isSpace; RStar false anyChar;
         RLit (js "from"); RPlus isSpace; RCls isQuote;
         RGroup 1 (RPlus notQuote); RCls isQuote; ROpt (RLit (js ";"))].

(** [/export\s+[\s\S]*?from\s+[\x22']([^\x22']+)[\x22'];?/g] *)
Definition EXPORT_FROM_REGEX : regex :=
  RSeqs [RLit (js "export"); RPlus isSpace; RStar false anyChar;
         RLit (js "from"); RPlus isSpace; RCls isQuote;
         RGroup 1 (RPlus notQuote); RCls isQuote; ROpt (RLit (js ";"))].

(** [/\{([\s\S]*?)\}/] of [analyzeImportStatement] *)
Definition NAMED_SECTION_REGEX : regex :=
  RSeqs [RLit (js "{"); RGroup 1 (RStar false anyChar); RLit (js "}")].

(** [/([^,]+)(,?)/g], the [matcher] of [parseNamedImports] *)
Definition ENTRY_REGEX : regex :=
  RSeq (RGroup 1 (RPlus notComma)) (RGroup 2 (ROpt (RLit (js ",")))).

(** [/\s+as\s+/] of [parseNamedImports] *)
Definition AS_REGEX : regex :=
  RSeqs [RPlus isSpace; RLit (js "as"); RPlus isSpace].

(** [/\s+/g] of [extractDefaultImport] *)
Definition SPACES_REGEX : regex := RPlus isSpace.

(** The regular expression of [extractDefaultImport]: [import\s+], then
    group 1, which is [[A-Za-z_$]] followed by [[\w$]*], then
    [\s*(?:,|from)]. *)
Definition DEFAULT_IMPORT_REGEX : regex :=
  RSeqs [RLit (js "import"); RPlus isSpace;
         RGroup 1 (RSeq (RCls isIdentStart) (RStar true isIdentPart));
         RStar true isSpace; RAlt (RLit (js ",")) (RLit (js "from"))].

(** [LEGACY_COMPONENT_SPECIFIERS.has(specifier)] *)
Definition isLegacySpecifier (specifier : jstring) : bool :=
  existsb (strEq specifier) LEGACY_COMPONENT_SPECIFIERS.

Definition componentsTransform : ImportTransform :=
  mkTransform COMPONENT_TARGET (Some COMPONENT_SPECIFIER_RENAMES)
    (js "components import migrated to " ++ COMPONENT_TARGET).

Definition determineTransform (legacyPath : jstring) (specifiers : list jstring)
  : option ImportTransform :=
  if negb (startsWith (js "~~/components/scaffold-eth") legacyPath) then None
  else if strEq legacyPath (js "~~/components/scaffold-eth") then
    let usesLegacyComponent := existsb isLegacySpecifier specifiers in
    if negb usesLegacyComponent then None
    else Some componentsTransform
  else if strEq legacyPath (js "~~/components/scaffold-eth/Input")
       || strEq legacyPath (js "~~/components/scaffold-eth/Input/AddressInput")
       || strEq legacyPath (js "~~/components/scaffold-eth/Input/EtherInput")
       || strEq legacyPath (js "~~/components/scaffold-eth/Address/Address")
       || strEq legacyPath (js "~~/components/scaffold-eth/Address")
  then Some componentsTransform
  else None.

(** [specText.indexOf(trimmed)] where [trimmed] is known to occur. *)
Definition indexOfFound (p s : jstring) : nat :=
  match indexOf p s with
  | Some i => i
  | None => 0
  end.

(** The body of the loop of [parseNamedImports] for one match of the
    [matcher]: the entry pushed. *)
Definition parseEntry (m : rmatch) : NamedImportEntry :=
  let full := text m in
  let specText := group 1 m in
  let comma := group 2 m in
  let trimmed := trim specText in
  if negb (truthy trimmed) then mkEntry full None None None None
  else
    let leadingWhitespace := sliceTo (indexOfFound trimmed specText) specText in
    let trailingWhitespace :=
      sliceFrom (indexOfFound trimmed specText + length trimmed) specText in
    let isType := startsWith (js "type ") trimmed in
    let rest := if isType then trim (sliceFrom 5 trimmed) else trimmed in
    let asMatch := match_ AS_REGEX rest in
    let imported :=
      match asMatch with
      | Some a => trim (sliceTo (index a) rest)
      | None => rest
      end in
    let alias :=
      match asMatch with
      | Some a => Some (trim (sliceFrom (index a + length (text a)) rest))
      | None => None
      end in
    mkEntry full (Some (mkSpec isType imported alias))
      (Some leadingWhitespace) (Some trailingWhitespace) (Some comma).

(** The specifier pushed by the same iteration, if any. *)
Definition entrySpecifier (e : NamedImportEntry) : list jstring :=
  match spec e with
  | Some sp => [imported sp]
  | None => []
  end.

Definition parseNamedImports (content : jstring) : Parsed.NamedImportParseResult :=
  let entries := map parseEntry (matchAll ENTRY_REGEX content) in
  Parsed.mk entries (flat_map entrySpecifier entries).

(** What [renameMap[key]] evaluates to: an own rule, or a value inherited
    from [Object.prototype], which is truthy and has neither [newName] nor
    [keepAlias]. *)
Inductive PropertyValue :=
| OwnRule (r : SpecifierRenameRule)
| Inherited.

Fixpoint ownProperty (renameMap : RenameMap) (key : jstring) : option SpecifierRenameRule :=
  match renameMap with
  | [] => None
  | (k, r) :: rest => if strEq k key then Some r else ownProperty rest key
  end.

Definition getProperty (renameMap : RenameMap) (key : jstring) : option PropertyValue :=
  match ownProperty renameMap key with
  | Some r => Some (OwnRule r)
  | None =>
      if existsb (strEq key) OBJECT_PROTOTYPE_KEYS then Some Inherited else None
  end.

(** [rule.newName] and the truthiness of [rule.keepAlias] *)
Definition ruleNewName (v : PropertyValue) : option jstring :=
  match v with
  | OwnRule r => Some (newName r)
  | Inherited => None
  end.

Definition ruleKeepsAlias (v : PropertyValue) : bool :=
  match v with
  | OwnRule r => match keepAlias r with Some b => b | None => false end
  | Inherited => false
  end.

Definition orEmpty (v : option jstring) : jstring :=
  match v with
  | Some s => s
  | None => []
  end.

(** The function mapped over the entries by [buildNamedImport]. *)
Definition buildEntry (renameMap : RenameMap) (entry : NamedImportEntry) : jstring :=
  match spec entry with
  | None => raw entry
  | Some sp =>
      let rule := getProperty renameMap (imported sp) in
      let imported' : option jstring :=
        match rule with
        | Some v => ruleNewName v
        | None => Some (imported sp)
        end in
      let alias' : option jstring :=
        match rule with
        | Some v =>
            match alias sp with
            | Some a => Some a
            | None => if ruleKeepsAlias v then Some (imported sp) else None
            end
        | None => alias sp
        end in
      let specText : option jstring :=
        if isType sp then Some (js "type " ++ toStr imported') else imported' in
      let specText' : option jstring :=
        match alias' with
        | Some a => if truthy a then Some (toStr specText ++ js " as " ++ a) else specText
        | None => specText
        end in
      orEmpty (leadingWhitespace entry) ++ toStr specText'
      ++ orEmpty (trailingWhitespace entry) ++ orEmpty (comma entry)
  end.

Definition buildNamedImport (entries : list NamedImportEntry) (renameMap : RenameMap)
  : jstring :=
  concat (map (buildEntry renameMap) entries).

Definition extractDefaultImport (statement : jstring) : option jstring :=
  let sanitized := replaceAll SPACES_REGEX (js " ") statement in
  match match_ DEFAULT_IMPORT_REGEX sanitized with
  | None => None
  | Some m =>
      let identifier := group 1 m in
      if strEq identifier (js "type") then None else Some identifier
  end.

Definition analyzeImportStatement (fullStatement legacyPath : jstring)
  : Analysis.ImportAnalysis :=
  let namedSectionMatch := match_ NAMED_SECTION_REGEX fullStatement in
  let namedResult :=
    option_map (fun m => parseNamedImports (group 1 m)) namedSectionMatch in
  let specifiers0 :=
    match namedResult with
    | Some r => Parsed.specifiers r
    | None => []
    end in
  let defaultImport := extractDefaultImport fullStatement in
  let specifiers :=
    match defaultImport with
    | Some d => if truthy d then specifiers0 ++ [d] else specifiers0
    | None => specifiers0
    end in
  match determineTransform legacyPath specifiers with
  | None => Analysis.mk fullStatement fullStatement specifiers defaultImport None
  | Some transform =>
      let updatedStatement := replace fullStatement legacyPath (newPath transform) in
      let updatedStatement' :=
        match namedSectionMatch, renameSpecifiers transform, namedResult with
        | Some m, Some renames, Some r =>
            let updatedBraceContent := buildNamedImport (Parsed.entries r) renames in
            replace updatedStatement (text m) (js "{" ++ updatedBraceContent ++ js "}")
        | _, _, _ => updatedStatement
        end in
      Analysis.mk fullStatement updatedStatement' specifiers defaultImport (Some transform)
  end.

(** The state of the loops of [transformContent]: the working text and the
    summary so far. *)
Definition state := (jstring * list jstring)%type.

Definition importLine (t : ImportTransform) : jstring :=
  js "import " ++ [arrow] ++ js " " ++ description t.
Definition exportLine (t : ImportTransform) : jstring :=
  js "export " ++ [arrow] ++ js " " ++ description t.
Definition rawLine (legacy modern : jstring) : jstring :=
  js "text " ++ [arrow] ++ js " " ++ legacy ++ js " " ++ [arrow] ++ js " " ++ modern.

(** One iteration of the loop over [importMatches]. *)
Definition importStep (st : state) (m : rmatch) : state :=
  let fullStatement := text m in
  let legacyPath := group 1 m in
  let analysis := analyzeImportStatement fullStatement legacyPath in
  let rewritten := Analysis.updated analysis in
  match Analysis.appliedTransform analysis with
  | Some appliedTransform =>
      if negb (strEq rewritten fullStatement)
      then (replace (fst st) fullStatement rewritten,
            snd st ++ [importLine appliedTransform])
      else st
  | None => st
  end.

(** One iteration of the loop over [exportMatches]. *)
Definition exportStep (st : state) (m : rmatch) : state :=
  let fullStatement := text m in
  let legacyPath := group 1 m in
  match determineTransform legacyPath [] with
  | Some transform =>
      let rewritten := replace fullStatement legacyPath (newPath transform) in
      if negb (strEq rewritten fullStatement)
      then (replace (fst st) fullStatement rewritten,
            snd st ++ [exportLine transform])
      else st
  | None => st
  end.

(** One iteration of the loop over [RAW_PATH_REPLACEMENTS]. *)
Definition rawStep (st : state) (rule : jstring * jstring) : state :=
  let legacy := fst rule in
  let modern := snd rule in
  if includes legacy (fst st)
  then (splitJoin legacy modern (fst st), snd st ++ [rawLine legacy modern])
  else st.

Definition importPass (st : state) : state :=
  fold_left importStep (matchAll IMPORT_REGEX (fst st)) st.
Definition exportPass (st : state) : state :=
  fold_left exportStep (matchAll EXPORT_FROM_REGEX (fst st)) st.
Definition rawPass (st : state) : state :=
  fold_left rawStep RAW_PATH_REPLACEMENTS st.

Definition transformContent (content filePath : jstring) : TransformResult :=
  let st := rawPass (exportPass (importPass (content, []))) in
  mkResult (fst st) (snd st).

(** The spec's [rewrite]: the core function applied to the text of a file. *)
Definition rewrite (fileContent : jstring) : TransformResult :=
  transformContent fileContent [].

(* ================================================================== *)
(** ** Vocabulary of the statements *)
(* ================================================================== *)

(** [v] occurs in [s]. *)
Definition occurs (v s : jstring) : Prop := exists a b, s = a ++ v ++ b.

(** [c] is one of the code units of [s]. *)
Definition hasChar (c : codeunit) (s : jstring) : bool := existsb (N.eqb c) s.

(** The bare legacy path, the prefix of every legacy path. *)
Definition barePath : jstring := js "~~/components/scaffold-eth".

(** The legacy strings of the raw table, and the two that are a prefix of
    all of them. *)
Definition rawLegacyStrings : list jstring := map fst RAW_PATH_REPLACEMENTS.
Definition inputPath : jstring := js "~~/components/scaffold-eth/Input".
Definition addressPath : jstring := js "~~/components/scaffold-eth/Address".

(** The specifiers [analyzeImportStatement] hands to [determineTransform]:
    the imported names of the first braces, then the default import. *)
Definition referencedSpecifiers (fullStatement : jstring) : list jstring :=
  let named :=
    match match_ NAMED_SECTION_REGEX fullStatement with
    | Some m => Parsed.specifiers (parseNamedImports (group 1 m))
    | None => []
    end in
  match extractDefaultImport fullStatement with
  | Some d => if truthy d then named ++ [d] else named
  | None => named
  end.


(** A text that starts with [~] and has no [@]: every legacy string is one,
    and the target package starts with [@] and has no [~]. *)
Definition legacyLike (p : jstring) : bool :=
  match p with
  | c :: _ => (c =? 126)%N && negb (hasChar 64%N p)
  | [] => false
  end.


Definition exportChanges (m : rmatch) : bool :=
  match determineTransform (group 1 m) [] with
  | Some t => negb (strEq (replace (text m) (group 1 m) (newPath t)) (text m))
  | None => false
  end.

(** [l1] is [l2] with some elements left out. *)
Inductive Subseq {A : Type} : list A -> list A -> Prop :=
| Subseq_nil : Subseq [] []
| Subseq_skip (x : A) (l1 l2 : list A) : Subseq l1 l2 -> Subseq l1 (x :: l2)
| Subseq_keep (x : A) (l1 l2 : list A) : Subseq l1 l2 -> Subseq (x :: l1) (x :: l2).


(** The five nested paths [determineTransform] compares with. *)
Definition nestedPaths : list jstring :=
  map js ["~~/components/scaffold-eth/Input";
          "~~/components/scaffold-eth/Input/AddressInput";
          "~~/components/scaffold-eth/Input/EtherInput";
          "~~/components/scaffold-eth/Address/Address";
          "~~/components/scaffold-eth/Address"]%string.

(** [l] is not the beginning of another string of [ls]. *)
Definition maximalIn (ls : list jstring) (l : jstring) : bool :=
  forallb (fun l' => negb (startsWith l l') || strEq l l') ls.


(** A text that starts with two [~] and has no other: every legacy string
    is one. *)
Definition tildeTwice (l : jstring) : bool :=
  match l with
  | c1 :: c2 :: l' => (c1 =? 126)%N && (c2 =? 126)%N && negb (hasChar 126%N l')
  | _ => false
  end.

(** No string of [ls] is the beginning of a later one. *)
Fixpoint noLaterExtension (ls : list jstring) : bool :=
  match ls with
  | [] => true
  | x :: rest => forallb (fun y => negb (startsWith x y)) rest && noLaterExtension rest
  end.


(** Closed statements about concrete texts are settled by evaluation. *)
Ltac evaluate := vm_compute; reflexivity.

(* ================================================================== *)
(** ** The walk over the files and the step for one file *)
(* ================================================================== *)

Definition SUPPORTED_CODE_EXTENSIONS : list jstring :=
  map js [".ts"; ".tsx"; ".js"; ".jsx"; ".mjs"; ".cjs"; ".mts"; ".cts";
          ".args.mjs"; ".md"; ".mdx"]%string.

Definition IGNORED_DIRECTORIES : list jstring :=
  map js ["node_modules"; ".git"; "dist"; ".next"; "build"; "out"]%string.

(** [s.endsWith(p)] *)
Definition endsWith (p s : jstring) : bool := startsWith (rev p) (rev s).

(** [set.has(x)] for a set of strings. *)
Definition has (set : list jstring) (x : jstring) : bool := existsb (strEq x) set.

(** [getExtension]; [extname] stands for [path.extname] of Node. *)
Definition getExtension (extname : jstring -> jstring) (fileName : jstring) : jstring :=
  if endsWith (js ".args.mjs") fileName then js ".args.mjs" else extname fileName.

(** An entry [fs.readdir] returns with [withFileTypes]: a file, a directory
    (with the entries a [readdir] of it returns, in their order), or
    something that is neither. *)
#[warning="-register-all"]
Inductive Dirent : Type :=
| File (name : jstring)
| Directory (name : jstring) (entries : list Dirent)
| Other (name : jstring).

Definition direntName (entry : Dirent) : jstring :=
  match entry with
  | File name => name
  | Directory name _ => name
  | Other name => name
  end.

(** The body of the loop of [collectFilesRecursively] for one entry of
    [targetDir]; [join] stands for [path.join] of Node.  The recursive call
    of the source on a directory is the loop over the entries of that
    directory. *)
Fixpoint collectEntry
         (join : jstring -> jstring -> jstring) (extname : jstring -> jstring)
         (targetDir : jstring) (accumulator : list jstring) (entry : Dirent)
         {struct entry} : list jstring :=
  if has IGNORED_DIRECTORIES (direntName entry) then accumulator
  else
    match entry with
    | Directory name entries =>
        let fullPath := join targetDir name in
        fold_left (collectEntry join extname fullPath) entries accumulator
    | File name =>
        let fullPath := join targetDir name in
        let ext := getExtension extname name in
        if has SUPPORTED_CODE_EXTENSIONS ext
        then accumulator ++ [fullPath]
        else accumulator
    | Other _ => accumulator
    end.

(** [collectFilesRecursively]: [dirEntries] is what [readdir] returns for
    [targetDir]; the result is the accumulator after the pushes. *)
Definition collectFilesRecursively
         (join : jstring -> jstring -> jstring) (extname : jstring -> jstring)
         (targetDir : jstring) (dirEntries : list Dirent) (accumulator : list jstring)
  : list jstring :=
  fold_left (collectEntry join extname targetDir) dirEntries accumulator.

(** The files: the text of each path that can be read. *)
Definition FileSystem := jstring -> option jstring.

(** [fs.writeFile(filePath, content)] *)
Definition writeFile (files : FileSystem) (filePath content : jstring) : FileSystem :=
  fun p => if strEq p filePath then Some content else files p.

(** [processFile]: [None] when [fs.readFile] rejects, otherwise the files
    after the call, [changed] and the summary. *)
Definition processFile (files : FileSystem) (filePath : jstring) (dryRun : bool)
  : option (FileSystem * bool * list jstring) :=
  match files filePath with
  | None => None
  | Some originalContent =>
      let result := transformContent originalContent filePath in
      let changed := negb (strEq (updatedContent result) originalContent) in
      let files' :=
        if changed && negb dryRun
        then writeFile files filePath (updatedContent result)
        else files in
      Some (files', changed, summary result)
  end.

(** What the loop of [main] over [filesToProcess] accumulates. *)
Record Report := mkReport {
  filesChanged : nat;
  changeSummary : list jstring
}.

(** The loop ends, or a [processFile] rejects and [main] with it; the files
    written until then stay written. *)
Inductive RunResult : Type :=
| Completed (files : FileSystem) (report : Report)
| Rejected (files : FileSystem).

(** The loop of [main] over [filesToProcess]; [relative] stands for
    [path.relative(process.cwd(), filePath)]. *)
Fixpoint processFiles (relative : jstring -> jstring) (dryRun : bool)
         (filesToProcess : list jstring) (files : FileSystem) (report : Report)
  : RunResult :=
  match filesToProcess with
  | [] => Completed files report
  | filePath :: rest =>
      match processFile files filePath dryRun with
      | None => Rejected files
      | Some (files', changed, lines) =>
          let report' :=
            if changed
            then mkReport (filesChanged report + 1)
                   (changeSummary report
                    ++ map (fun line => relative filePath ++ js ": " ++ line) lines)
            else report in
          processFiles relative dryRun rest files' report'
      end
  end.

(** [p] is collected from [dirEntries] of [targetDir]: it is a file with a
    supported extension, reached through directories, and neither its name
    nor the name of one of these directories is an ignored name. *)
Inductive Collected (join : jstring -> jstring -> jstring) (extname : jstring -> jstring)
  : jstring -> list Dirent -> jstring -> Prop :=
| Collected_file targetDir dirEntries name :
    In (File name) dirEntries ->
    has IGNORED_DIRECTORIES name = false ->
    has SUPPORTED_CODE_EXTENSIONS (getExtension extname name) = true ->
    Collected join extname targetDir dirEntries (join targetDir name)
| Collected_directory targetDir dirEntries name entries p :
    In (Directory name entries) dirEntries ->
    has IGNORED_DIRECTORIES name = false ->
    Collected join extname (join targetDir name) entries p ->
    Collected join extname targetDir dirEntries p.

(** The files of a completed run; [None] for a rejected one. *)
Definition completedFiles (r : RunResult) : option FileSystem :=
  match r with
  | Completed files _ => Some files
  | Rejected _ => None
  end.


(** The files a run leaves, completed or not. *)
Definition filesAfter (r : RunResult) : FileSystem :=
  match r with
  | Completed files _ => files
  | Rejected files => files
  end.

(** The clause without the commas that no specifier precedes: one that
    starts the clause or follows another comma. *)
Fixpoint dropLoneCommas (afterComma : bool) (s : jstring) : jstring :=
  match s with
  | [] => []
  | c :: s' =>
      if (c =? 44)%N
      then if afterComma then dropLoneCommas true s' else c :: dropLoneCommas true s'
      else c :: dropLoneCommas false s'
  end.

(** The statement locators, by their keyword. *)
Definition statementRegex (keyword : jstring) : regex :=
  RSeqs [RLit keyword; RPlus isSpace; RStar false anyChar;
         RLit (js "from"); RPlus isSpace; RCls isQuote;
         RGroup 1 (RPlus notQuote); RCls isQuote; ROpt (RLit (js ";"))].

(** Induction over a directory tree, with the hypothesis available for
    every entry of a sub-directory. *)
Fixpoint Dirent_tree_ind (P : Dirent -> Prop)
         (HFile : forall name, P (File name))
         (HDirectory : forall name entries, Forall P entries -> P (Directory name entries))
         (HOther : forall name, P (Other name))
         (entry : Dirent) {struct entry} : P entry :=
  match entry with
  | File name => HFile name
  | Directory name entries =>
      HDirectory name entries
        ((fix all (l : list Dirent) : Forall P l :=
            match l with
            | [] => Forall_nil P
            | e :: rest => Forall_cons e (Dirent_tree_ind HFile HDirectory HOther e) (all rest)
            end) entries)
  | Other name => HOther name
  end.

(** The file at [filePath] is one [processFile] reports as changed. *)
Definition fileChanges (files : FileSystem) (filePath : jstring) : bool :=
  match files filePath with
  | Some originalContent =>
      negb (strEq (updatedContent (transformContent originalContent filePath)) originalContent)
  | None => false
  end.


(* ================================================================== *)
(** ** The matcher and the string primitives on small texts *)
(* ================================================================== *)

Section Examples.

(** Two statements in one text, with either quote. *)
Example import_regex_statements :
  map (fun m => (index m, text m, group 1 m))
      (matchAll IMPORT_REGEX
         (js "import a from 'x';import { b } from " ++ [dquote] ++ js "y" ++ [dquote]))
  = [(0, js "import a from 'x';", js "x");
     (18, js "import { b } from " ++ [dquote] ++ js "y" ++ [dquote], js "y")].
Proof. evaluate. Qed.

(** The lazy clause ends at the first [from] that a quoted path follows,
    and the clause may span lines. *)
Example import_regex_lazy :
  map (fun m => group 1 m)
      (matchAll IMPORT_REGEX
         (jsLines ["import {"; "  fromage,"; "} from 'cheese' // from 'elsewhere'"]%string))
  = [js "cheese"].
Proof. evaluate. Qed.

(** The identifier of a default import gives characters back until [from]
    can follow. *)
Example default_import_backtracks :
  extractDefaultImport (js "import xfrom 'y'") = Some (js "x").
Proof. evaluate. Qed.

Example default_import_rejects_type :
  extractDefaultImport (js "import type Foo from 'y'") = None.
Proof. evaluate. Qed.

Example default_import_before_braces :
  extractDefaultImport (jsLines ["import Address,"; "  { Foo } from 'y'"]%string)
  = Some (js "Address").
Proof. evaluate. Qed.

(** The [matcher] of [parseNamedImports] passes over a comma that no
    specifier precedes. *)
Example entry_regex_skips_lone_commas :
  map text (matchAll ENTRY_REGEX (js ",a,, b ,")) = [js "a,"; js " b ,"].
Proof. evaluate. Qed.

Example parse_named_imports :
  parseNamedImports (js " type Foo as Bar , Baz,")
  = Parsed.mk
      [mkEntry (js " type Foo as Bar ,")
         (Some (mkSpec true (js "Foo") (Some (js "Bar"))))
         (Some (js " ")) (Some (js " ")) (Some (js ","));
       mkEntry (js " Baz,")
         (Some (mkSpec false (js "Baz") None))
         (Some (js " ")) (Some []) (Some (js ","))]
      [js "Foo"; js "Baz"].
Proof. evaluate. Qed.

(** [replace] expands the [$] patterns of its replacement. *)
Example replace_dollar_patterns :
  replace (js "a-b") (js "-") (js "[$&|$$|$1]") = js "a[-|$|$1]b".
Proof. evaluate. Qed.

Example replace_first_only :
  replace (js "x.x.x") (js "x") (js "y") = js "y.x.x".
Proof. evaluate. Qed.

(** [split] finds the occurrences from left to right without overlap. *)
Example splitJoin_no_overlap :
  splitJoin (js "aa") (js "b") (js "aaaaa") = js "bba".
Proof. evaluate. Qed.

(** A key that [Object.prototype] defines is found by the lookup in the
    rename table, and has no [newName]. *)
Example inherited_key :
  buildEntry COMPONENT_SPECIFIER_RENAMES
    (mkEntry (js " toString,") (Some (mkSpec false (js "toString") None))
       (Some (js " ")) (Some []) (Some (js ",")))
  = js " undefined,".
Proof. evaluate. Qed.

(** The rebuilt clause is spliced in by [replace], so a [$$] in it reaches
    the statement as a single [$]. *)
Example dollar_alias_in_statement :
  buildNamedImport (Parsed.entries (parseNamedImports (js " Address as $$ ")))
    COMPONENT_SPECIFIER_RENAMES = js " Address as $$ "
  /\ updatedContent (rewrite (js "import { Address as $$ } from '~~/components/scaffold-eth'"))
     = js "import { Address as $ } from '@scaffold-ui/components'".
Proof. split; evaluate. Qed.

End Examples.

(* ================================================================== *)
(** ** Facts about the string primitives *)
(* ================================================================== *)

Section StringFacts.

Lemma strEq_refl (a : jstring) : strEq a a = true.
Proof.
  induction a as [|x a IH]; simpl; [reflexivity|].
  now rewrite N.eqb_refl, IH.
Qed.

Lemma strEq_eq (a b : jstring) : strEq a b = true <-> a = b.
Proof.
  split.
  - revert b; induction a as [|x a IH]; intros [|y b]; simpl; try discriminate; auto.
    intros H. apply andb_true_iff in H as [Hx Hab].
    apply N.eqb_eq in Hx. apply IH in Hab. congruence.
  - intros ->. apply strEq_refl.
Qed.

Lemma strEq_neq (a b : jstring) : strEq a b = false <-> a <> b.
Proof.
  split.
  - intros H E. apply strEq_eq in E. congruence.
  - intros H. destruct (strEq a b) eqn:E; [|reflexivity].
    apply strEq_eq in E. contradiction.
Qed.

Lemma startsWith_app (p r : jstring) : startsWith p (p ++ r) = true.
Proof.
  induction p as [|x p IH]; simpl; [reflexivity|].
  now rewrite N.eqb_refl, IH.
Qed.

Lemma startsWith_split (p s : jstring) :
  startsWith p s = true -> s = p ++ skipn (length p) s.
Proof.
  revert s; induction p as [|x p IH]; intros s H; simpl in *; [reflexivity|].
  destruct s as [|y s]; [discriminate|].
  apply andb_true_iff in H as [Hx Hp]. apply N.eqb_eq in Hx. subst y.
  simpl. f_equal. now apply IH.
Qed.

Lemma startsWith_iff (p s : jstring) :
  startsWith p s = true <-> exists r, s = p ++ r.
Proof.
  split.
  - intros H. eexists. now apply startsWith_split.
  - intros [r ->]. apply startsWith_app.
Qed.

Lemma startsWith_nil_r (p : jstring) : startsWith p [] = true -> p = [].
Proof. destruct p; simpl; [reflexivity|discriminate]. Qed.

(** A prefix of a prefix. *)
Lemma startsWith_app_l (p q s : jstring) :
  startsWith (p ++ q) s = true -> startsWith p s = true.
Proof.
  intros H. apply startsWith_iff in H as [r ->].
  rewrite <- app_assoc. apply startsWith_app.
Qed.

Lemma occurs_nil (s : jstring) : occurs [] s.
Proof. now exists [], s. Qed.

Lemma occurs_refl (s : jstring) : occurs s s.
Proof. exists [], []. simpl. now rewrite app_nil_r. Qed.

Lemma occurs_cons (v s : jstring) (c : codeunit) : occurs v s -> occurs v (c :: s).
Proof. intros (a & b & ->). now exists (c :: a), b. Qed.

Lemma occurs_app_r (v s pre : jstring) : occurs v s -> occurs v (pre ++ s).
Proof.
  intros (a & b & ->). exists (pre ++ a), b. now rewrite <- app_assoc.
Qed.

Lemma occurs_app_l (v s post : jstring) : occurs v s -> occurs v (s ++ post).
Proof.
  intros (a & b & ->). exists a, (b ++ post). now rewrite <- !app_assoc.
Qed.


Lemma occurs_prefix (p q s : jstring) : occurs (p ++ q) s -> occurs p s.
Proof.
  intros (a & b & ->). exists a, (q ++ b). now rewrite <- app_assoc.
Qed.

Lemma occurs_firstn (n : nat) (s : jstring) : occurs (firstn n s) s.
Proof.
  exists [], (skipn n s). simpl. symmetry. apply firstn_skipn.
Qed.

Lemma occurs_skipn (n : nat) (s : jstring) : occurs (skipn n s) s.
Proof.
  exists (firstn n s), []. rewrite app_nil_r. symmetry. apply firstn_skipn.
Qed.

Lemma includes_startsWith (p s : jstring) :
  startsWith p s = true -> includes p s = true.
Proof.
  intros H. destruct s; simpl; [assumption|]. now rewrite H.
Qed.

Lemma includes_occurs (p s : jstring) : includes p s = true <-> occurs p s.
Proof.
  split.
  - induction s as [|c s IH]; simpl.
    + intros H. apply startsWith_nil_r in H. subst. apply occurs_refl.
    + intros H. apply orb_true_iff in H as [H|H].
      * apply startsWith_iff in H as [r Hr]. exists [], r. now rewrite Hr.
      * apply occurs_cons. now apply IH.
  - intros (a & b & ->). induction a as [|c a IH]; simpl.
    + apply includes_startsWith, startsWith_app.
    + rewrite IH. apply orb_true_r.
Qed.

Lemma includes_false (p s : jstring) : includes p s = false <-> ~ occurs p s.
Proof.
  rewrite <- includes_occurs. destruct (includes p s); split; intros; congruence.
Qed.

Lemma indexOf_none (p s : jstring) : indexOf p s = None -> includes p s = false.
Proof.
  induction s as [|c s IH]; simpl.
  - destruct (startsWith p []); [discriminate|reflexivity].
  - destruct (startsWith p (c :: s)); [discriminate|]. simpl.
    destruct (indexOf p s); [discriminate|]. intros _. now apply IH.
Qed.

Lemma replace_absent (s p r : jstring) : includes p s = false -> replace s p r = s.
Proof.
  intros H. unfold replace. destruct (indexOf p s) as [i|] eqn:E; [|reflexivity].
  exfalso. revert i E. induction s as [|c s IH]; intros i; simpl in *.
  - rewrite H. discriminate.
  - apply orb_false_iff in H as [H1 H2]. rewrite H1.
    destruct (indexOf p s) as [j|]; [|discriminate]. intros _. now apply (IH H2 j).
Qed.

End StringFacts.

Create HintDb occurs.
#[local] Hint Resolve occurs_nil occurs_refl occurs_cons occurs_app_r occurs_app_l
  occurs_firstn occurs_skipn : occurs.

(* ================================================================== *)
(** ** Facts about [split(...).join(...)] *)
(* ================================================================== *)

Lemma splitJoinFrom_skip (sep by_ pre rest : jstring) :
  splitJoinFrom sep by_ (length pre) (pre ++ rest) = splitJoinFrom sep by_ 0 rest.
Proof.
  induction pre as [|c pre IH]; simpl; [|exact IH].
  destruct rest; reflexivity.
Qed.

Lemma splitJoinFrom_hit (sep by_ r : jstring) :
  sep <> [] ->
  splitJoinFrom sep by_ 0 (sep ++ r) = by_ ++ splitJoinFrom sep by_ 0 r.
Proof.
  intros Hsep. destruct sep as [|c sep']; [contradiction|].
  change ((c :: sep') ++ r) with (c :: (sep' ++ r)).
  cbn [splitJoinFrom]. change (c :: sep' ++ r) with ((c :: sep') ++ r).
  rewrite startsWith_app. f_equal.
  cbn [length]. rewrite Nat.sub_succ, Nat.sub_0_r. apply splitJoinFrom_skip.
Qed.

Lemma splitJoinFrom_miss (sep by_ : jstring) (c : codeunit) (s : jstring) :
  startsWith sep (c :: s) = false ->
  splitJoinFrom sep by_ 0 (c :: s) = c :: splitJoinFrom sep by_ 0 s.
Proof. intros H. cbn [splitJoinFrom]. now rewrite H. Qed.

Section SplitJoin.

Variables sep by_ : jstring.

(** The three cases of a scan. *)
Lemma splitJoinFrom_cases (s : jstring) :
  sep <> [] ->
  (s = [] /\ splitJoinFrom sep by_ 0 s = [])
  \/ (exists r, s = sep ++ r /\ length r < length s
                /\ splitJoinFrom sep by_ 0 s = by_ ++ splitJoinFrom sep by_ 0 r)
  \/ (exists c s', s = c :: s' /\ startsWith sep s = false
                   /\ splitJoinFrom sep by_ 0 s = c :: splitJoinFrom sep by_ 0 s').
Proof.
  intros Hsep. destruct s as [|c s']; [now left|]. right.
  destruct (startsWith sep (c :: s')) eqn:E.
  - left. apply startsWith_iff in E as [r Hr]. exists r. rewrite Hr.
    split; [reflexivity|]. split; [|now apply splitJoinFrom_hit].
    rewrite length_app. destruct sep; [contradiction|simpl; lia].
  - right. exists c, s'. split; [reflexivity|]. split; [reflexivity|].
    now apply splitJoinFrom_miss.
Qed.

(** An occurrence that starts inside a text without its first code unit
    starts after that text. *)
Lemma includes_skip (p0 : codeunit) (p' m x : jstring) :
  hasChar p0 m = false ->
  includes (p0 :: p') (m ++ x) = true -> includes (p0 :: p') x = true.
Proof.
  induction m as [|c m IH]; simpl; intros Hm H; [assumption|].
  apply orb_false_iff in Hm as [Hc Hm].
  rewrite Hc in H. simpl in H. now apply IH.
Qed.

Variable b0 : codeunit.
Variable by' : jstring.
Hypothesis by_shape : by_ = b0 :: by'.
Hypothesis sep_nonempty : sep <> [].

(** A prefix of the result that has no [b0] lies before the first
    replacement, so it is a prefix of the input. *)
Lemma startsWith_splitJoin (s p : jstring) :
  hasChar b0 p = false ->
  startsWith p (splitJoinFrom sep by_ 0 s) = true -> startsWith p s = true.
Proof.
  revert p. induction s as [|c s IH]; intros p Hp H.
  - exact H.
  - destruct (startsWith sep (c :: s)) eqn:E.
    + apply startsWith_iff in E as [r Hr]. rewrite Hr, splitJoinFrom_hit in H by assumption.
      rewrite by_shape in H. destruct p as [|x p]; [reflexivity|].
      simpl in H, Hp. apply andb_true_iff in H as [Hx _]. apply N.eqb_eq in Hx. subst x.
      rewrite N.eqb_refl in Hp. discriminate.
    + rewrite splitJoinFrom_miss in H by assumption.
      destruct p as [|x p]; [reflexivity|].
      simpl in H, Hp |- *. apply orb_false_iff in Hp as [_ Hp].
      apply andb_true_iff in H as [Hx H]. rewrite Hx. simpl. now apply IH.
Qed.

(** Replacing creates no occurrence of a text that starts with a code unit
    absent from the replacement and has none of [b0]. *)
Lemma includes_splitJoin (p0 : codeunit) (p' : jstring) (s : jstring) :
  hasChar b0 (p0 :: p') = false ->
  hasChar p0 by_ = false ->
  includes (p0 :: p') (splitJoinFrom sep by_ 0 s) = true ->
  includes (p0 :: p') s = true.
Proof.
  intros Hp Hby.
  assert (G : forall n s, length s <= n ->
              includes (p0 :: p') (splitJoinFrom sep by_ 0 s) = true ->
              includes (p0 :: p') s = true).
  { induction n as [|n IH]; intros s0 Hlen H.
    - destruct s0; [exact H|simpl in Hlen; lia].
    - destruct (splitJoinFrom_cases s0 sep_nonempty)
        as [[-> E]|[(r & -> & Hr & E)|(c & s' & -> & Hm & E)]].
      + exact H.
      + rewrite E in H. apply includes_skip in H; [|assumption].
        apply includes_occurs, occurs_app_r, includes_occurs.
        apply IH; [lia|assumption].
      + rewrite E in H. simpl in H. apply orb_true_iff in H as [H|H].
        * apply includes_startsWith.
          apply startsWith_splitJoin; [assumption|]. now rewrite E.
        * apply includes_occurs, occurs_cons, includes_occurs.
          apply IH; [simpl in Hlen; lia|assumption]. }
  intros H. now apply (G (length s) s).
Qed.

(** After the replacement no occurrence of the separator is left. *)
Lemma splitJoin_removes (p0 : codeunit) (p' : jstring) (s : jstring) :
  sep = p0 :: p' ->
  hasChar b0 sep = false ->
  hasChar p0 by_ = false ->
  includes sep (splitJoinFrom sep by_ 0 s) = false.
Proof.
  intros Hsep Hp Hby.
  assert (G : forall n s, length s <= n ->
              includes sep (splitJoinFrom sep by_ 0 s) = false).
  { induction n as [|n IH]; intros s0 Hlen.
    - destruct s0; [|simpl in Hlen; lia]. simpl. now rewrite Hsep.
    - destruct (splitJoinFrom_cases s0 sep_nonempty)
        as [[-> E]|[(r & -> & Hr & E)|(c & s' & -> & Hm & E)]].
      + rewrite E. simpl. now rewrite Hsep.
      + rewrite E. destruct (includes sep (by_ ++ _)) eqn:F; [|reflexivity].
        rewrite Hsep in F at 1. apply includes_skip in F; [|assumption].
        rewrite <- Hsep in F. rewrite IH in F; [discriminate|lia].
      + rewrite E. simpl. rewrite IH by (simpl in Hlen; lia).
        rewrite orb_false_r. rewrite <- E.
        destruct (startsWith sep (splitJoinFrom _ _ _ _)) eqn:F; [|reflexivity].
        apply startsWith_splitJoin in F; [congruence|assumption]. }
  now apply (G (length s) s).
Qed.

End SplitJoin.

(* ================================================================== *)
(** ** Facts about the matcher *)
(* ================================================================== *)

Section MatcherFacts.

Lemma starGreedy_suffix (p : codeunit -> bool) (s s' : jstring) :
  In s' (starGreedy p s) -> exists pre, s = pre ++ s'.
Proof.
  induction s as [|c s IH]; simpl.
  - intros [<-|[]]. now exists [].
  - destruct (p c).
    + intros H. apply in_app_or in H as [H|[<-|[]]].
      * destruct (IH H) as [pre ->]. now exists (c :: pre).
      * now exists [].
    + intros [<-|[]]. now exists [].
Qed.

Lemma starLazy_suffix (p : codeunit -> bool) (s s' : jstring) :
  In s' (starLazy p s) -> exists pre, s = pre ++ s'.
Proof.
  induction s as [|c s IH]; simpl.
  - intros [<-|[]]. now exists [].
  - destruct (p c).
    + intros [<-|H]; [now exists []|].
      destruct (IH H) as [pre ->]. now exists (c :: pre).
    + intros [<-|[]]. now exists [].
Qed.

(** Every way to match consumes a prefix of the text, and every capture it
    adds is a piece of the text. *)
Lemma run_sound (r : regex) :
  forall s cs s' cs',
    In (s', cs') (run r s cs) ->
    (exists pre, s = pre ++ s')
    /\ (forall n v, In (n, v) cs' -> In (n, v) cs \/ occurs v s).
Proof.
  induction r as [|l|p|r1 IH1 r2 IH2|r1 IH1 r2 IH2|g p|k r1 IH1];
    intros s cs s' cs' H; simpl in H.
  - destruct H as [H|[]]. inversion H; subst. split; [now exists []|auto].
  - destruct (startsWith l s) eqn:E; [|contradiction].
    destruct H as [H|[]]. inversion H; subst. split; [|auto].
    exists l. now apply startsWith_split.
  - destruct s as [|c s]; [contradiction|]. destruct (p c); [|contradiction].
    destruct H as [H|[]]. inversion H; subst. split; [now exists [c]|auto].
  - apply in_flat_map in H as ([s1 c1] & H1 & H2). simpl in H2.
    apply IH1 in H1 as [[pre1 E1] C1]. apply IH2 in H2 as [[pre2 E2] C2].
    split.
    + exists (pre1 ++ pre2). now rewrite <- app_assoc, <- E2.
    + intros n v Hv. destruct (C2 n v Hv) as [Hc|Hc]; [now apply C1|].
      right. rewrite E1. auto with occurs.
  - apply in_app_or in H as [H|H]; [now apply IH1|now apply IH2].
  - apply in_map_iff in H as (x & Hx & H). inversion Hx; subst. split; [|auto].
    destruct g; [now apply starGreedy_suffix in H|now apply starLazy_suffix in H].
  - apply in_map_iff in H as ([s1 c1] & Hx & H). simpl in Hx. inversion Hx; subst.
    apply IH1 in H as [E C]. split; [assumption|].
    intros n v [Hv|Hv].
    + inversion Hv; subst. auto with occurs.
    + now apply C.
Qed.

Lemma assoc_In (n : nat) (cs : captures) (v : jstring) :
  assoc n cs = Some v -> In (n, v) cs.
Proof.
  induction cs as [|[k w] cs IH]; simpl; [discriminate|].
  destruct (Nat.eqb k n) eqn:E.
  - intros H. inversion H; subst. apply Nat.eqb_eq in E. subst. now left.
  - intros H. right. now apply IH.
Qed.

Lemma execAt_sound (r : regex) (i : nat) (s : jstring) (m : rmatch) :
  execAt r i s = Some m ->
  index m = i /\ occurs (text m) s /\ forall n, occurs (group n m) s.
Proof.
  unfold execAt. destruct (run r s []) as [|[rest cs] l] eqn:E; [discriminate|].
  intros H. inversion H; subst; clear H. simpl. split; [reflexivity|].
  split; [auto with occurs|].
  intros n. unfold group. simpl. destruct (assoc n cs) as [v|] eqn:A; [|auto with occurs].
  apply assoc_In in A.
  assert (Hin : In (rest, cs) (run r s [])) by (rewrite E; now left).
  apply run_sound in Hin as [_ C]. destruct (C n v A) as [[]|Hv]. exact Hv.
Qed.

(** The text and the groups of every match of [matchAll] are pieces of the
    text searched. *)
Lemma matchAllFrom_sound (r : regex) (s : jstring) :
  forall i skip m,
    In m (matchAllFrom r i skip s) ->
    occurs (text m) s /\ forall n, occurs (group n m) s.
Proof.
  induction s as [|c s IH]; intros i skip m H.
  - destruct skip; simpl in H; [|contradiction].
    destruct (execAt r i []) as [m0|] eqn:E; [|contradiction].
    destruct H as [<-|[]]. now apply execAt_sound in E as (_ & ? & ?).
  - assert (Tail : forall i' k, In m (matchAllFrom r i' k s) ->
                     occurs (text m) (c :: s) /\ forall n, occurs (group n m) (c :: s)).
    { intros i' k Hk. apply IH in Hk as [T G]. split; auto with occurs. }
    destruct skip; simpl in H; [|now apply Tail in H].
    destruct (execAt r i (c :: s)) as [m0|] eqn:E; [|now apply Tail in H].
    destruct H as [<-|H]; [|now apply Tail in H].
    now apply execAt_sound in E as (_ & ? & ?).
Qed.

Lemma matchAll_sound (r : regex) (s : jstring) (m : rmatch) :
  In m (matchAll r s) -> occurs (text m) s /\ forall n, occurs (group n m) s.
Proof. apply matchAllFrom_sound. Qed.

End MatcherFacts.

(* ================================================================== *)
(** ** Facts about the codemod *)
(* ================================================================== *)

Section TransformFacts.

Lemma determineTransform_some (p : jstring) (specs : list jstring) (t : ImportTransform) :
  determineTransform p specs = Some t ->
  t = componentsTransform
  /\ ((p = barePath /\ existsb isLegacySpecifier specs = true)
      \/ In p rawLegacyStrings).
Proof.
  unfold determineTransform.
  destruct (startsWith _ p); simpl; [|discriminate].
  destruct (strEq p _) eqn:Eb.
  - apply strEq_eq in Eb.
    destruct (existsb isLegacySpecifier specs); simpl; [|discriminate].
    intros H. inversion H. split; [reflexivity|]. left. now split.
  - destruct (_ || _) eqn:En; [|discriminate].
    intros H. inversion H. split; [reflexivity|]. right.
    repeat (apply orb_true_iff in En as [En|En]);
      apply strEq_eq in En; subst p; unfold rawLegacyStrings; simpl; tauto.
Qed.

Lemma determineTransform_bare (specs : list jstring) :
  determineTransform barePath specs =
  if existsb isLegacySpecifier specs then Some componentsTransform else None.
Proof.
  unfold determineTransform.
  replace (startsWith _ barePath) with true by reflexivity.
  replace (strEq barePath _) with true by reflexivity.
  simpl. now destruct (existsb isLegacySpecifier specs).
Qed.

Lemma determineTransform_nested (p : jstring) (specs : list jstring) :
  In p rawLegacyStrings -> determineTransform p specs = Some componentsTransform.
Proof.
  unfold rawLegacyStrings. simpl.
  intros [<-|[<-|[<-|[<-|[<-|[]]]]]]; reflexivity.
Qed.

Lemma rawLegacy_prefix (l : jstring) :
  In l rawLegacyStrings ->
  (exists r, l = inputPath ++ r) \/ (exists r, l = addressPath ++ r).
Proof.
  unfold rawLegacyStrings. simpl.
  intros [<-|[<-|[<-|[<-|[<-|[]]]]]].
  - left. now exists (js "/AddressInput").
  - left. now exists (js "/EtherInput").
  - left. now exists [].
  - right. now exists (js "/Address").
  - right. now exists [].
Qed.

Lemma rawLegacy_absent (l y : jstring) :
  includes inputPath y = false -> includes addressPath y = false ->
  In l rawLegacyStrings -> includes l y = false.
Proof.
  intros Hi Ha Hl. apply includes_false. intros Hocc.
  apply includes_false in Hi, Ha.
  destruct (rawLegacy_prefix Hl) as [[r ->]|[r ->]];
    apply occurs_prefix in Hocc; contradiction.
Qed.



Lemma analyze_unchanged (f p : jstring) :
  determineTransform p (referencedSpecifiers f) = None ->
  Analysis.updated (analyzeImportStatement f p) = f.
Proof.
  unfold analyzeImportStatement, referencedSpecifiers.
  destruct (match_ NAMED_SECTION_REGEX f); simpl;
    destruct (determineTransform p _); (discriminate || reflexivity).
Qed.


Lemma exportStep_none (st : state) (m : rmatch) :
  determineTransform (group 1 m) [] = None -> exportStep st m = st.
Proof. intros H. unfold exportStep. now rewrite H. Qed.

Lemma rawStep_none (st : state) (rule : jstring * jstring) :
  includes (fst rule) (fst st) = false -> rawStep st rule = st.
Proof. intros H. unfold rawStep. now rewrite H. Qed.

Lemma fold_left_fixed {A B : Type} (f : A -> B -> A) (l : list B) (a : A) :
  (forall b, In b l -> f a b = a) -> fold_left f l a = a.
Proof.
  induction l as [|b l IH]; simpl; intros H; [reflexivity|].
  rewrite (H b) by now left. apply IH. intros b' Hb'. apply H. now right.
Qed.



(** *** The raw pass leaves no legacy string *)

Lemma target_shape : COMPONENT_TARGET = 64%N :: tl COMPONENT_TARGET.
Proof. reflexivity. Qed.

Lemma legacyLike_shape (p : jstring) :
  legacyLike p = true -> exists p', p = 126%N :: p' /\ hasChar 64%N p = false.
Proof.
  destruct p as [|c p]; [discriminate|]. unfold legacyLike.
  intros H. apply andb_true_iff in H as [Hc Hn]. apply N.eqb_eq in Hc. subst c.
  exists p. split; [reflexivity|]. now apply negb_true_iff in Hn.
Qed.

Lemma rawStep_removes (st : state) (l : jstring) :
  legacyLike l = true ->
  includes l (fst (rawStep st (l, COMPONENT_TARGET))) = false.
Proof.
  intros Hl. unfold rawStep. simpl fst; simpl snd.
  destruct (includes l (fst st)) eqn:E; [|exact E]. simpl fst.
  destruct (legacyLike_shape _ Hl) as (p' & Hp & Hn).
  rewrite Hp at 2. cbn [splitJoin]. rewrite <- Hp.
  eapply splitJoin_removes.
  - apply target_shape.
  - rewrite Hp. discriminate.
  - exact Hp.
  - exact Hn.
  - reflexivity.
Qed.

Lemma rawStep_keeps (st : state) (l p : jstring) :
  legacyLike p = true -> l <> [] ->
  includes p (fst st) = false ->
  includes p (fst (rawStep st (l, COMPONENT_TARGET))) = false.
Proof.
  intros Hp Hl Habs. unfold rawStep. simpl fst; simpl snd.
  destruct (includes l (fst st)) eqn:E; [|exact Habs]. simpl fst.
  destruct (legacyLike_shape _ Hp) as (p' & Ep & Hn). subst p.
  destruct (includes _ (splitJoin _ _ _)) eqn:F; [|reflexivity].
  destruct l as [|c l']; [contradiction|]. cbn [splitJoin] in F.
  apply (@includes_splitJoin (c :: l') COMPONENT_TARGET 64%N (tl COMPONENT_TARGET)
           target_shape ltac:(discriminate) 126%N p' (fst st)) in F.
  - exact (eq_trans (eq_sym F) Habs).
  - exact Hn.
  - reflexivity.
Qed.

Lemma rawPass_clean (st : state) :
  includes inputPath (fst (rawPass st)) = false
  /\ includes addressPath (fst (rawPass st)) = false.
Proof.
  unfold rawPass, RAW_PATH_REPLACEMENTS. cbn [fold_left].
  split.
  - apply rawStep_keeps; [reflexivity|discriminate|].
    apply rawStep_keeps; [reflexivity|discriminate|].
    apply (rawStep_removes _ inputPath). reflexivity.
  - apply (rawStep_removes _ addressPath). reflexivity.
Qed.

Lemma transformContent_clean (content filePath : jstring) :
  includes inputPath (updatedContent (transformContent content filePath)) = false
  /\ includes addressPath (updatedContent (transformContent content filePath)) = false.
Proof. unfold transformContent. simpl. apply rawPass_clean. Qed.

End TransformFacts.

(* ================================================================== *)
(** ** Facts about [trim] and the entries of a clause *)
(* ================================================================== *)

Section EntryFacts.

Lemma trimStart_split (s : jstring) :
  exists ws, s = ws ++ trimStart s /\ forallb isSpace ws = true.
Proof.
  induction s as [|c s (ws & E & W)]; [now exists []|]. simpl.
  destruct (isSpace c) eqn:Hc.
  - exists (c :: ws). simpl. rewrite Hc, W. split; [now f_equal|reflexivity].
  - now exists [].
Qed.

Lemma trimStart_head (s : jstring) (c : codeunit) (r : jstring) :
  trimStart s = c :: r -> isSpace c = false.
Proof.
  induction s as [|x s IH]; simpl; [discriminate|].
  destruct (isSpace x) eqn:Hx; [exact IH|].
  intros H. inversion H. now subst.
Qed.

Lemma forallb_rev {A : Type} (f : A -> bool) (l : list A) :
  forallb f l = true -> forallb f (rev l) = true.
Proof.
  intros H. apply forallb_forall. intros x Hx. apply in_rev in Hx.
  revert x Hx. now apply forallb_forall.
Qed.

Lemma trimEnd_split (s : jstring) :
  exists ws, s = trimEnd s ++ ws /\ forallb isSpace ws = true.
Proof.
  destruct (trimStart_split (rev s)) as (ws & E & W).
  exists (rev ws). split; [|now apply forallb_rev].
  unfold trimEnd. rewrite <- rev_app_distr, <- E. symmetry. apply rev_involutive.
Qed.

(** [s] is its leading whitespace, [trim s] and its trailing whitespace. *)
Lemma trim_split (s : jstring) :
  exists lead trail,
    s = lead ++ trim s ++ trail
    /\ forallb isSpace lead = true /\ forallb isSpace trail = true.
Proof.
  destruct (trimStart_split s) as (lead & E1 & W1).
  destruct (trimEnd_split (trimStart s)) as (trail & E2 & W2).
  exists lead, trail. unfold trim. now rewrite <- E2.
Qed.

Lemma trim_head (s : jstring) (c : codeunit) (r : jstring) :
  trim s = c :: r -> isSpace c = false.
Proof.
  intros H. destruct (trimEnd_split (trimStart s)) as (trail & E & _).
  fold (trim s) in E. rewrite H in E. simpl in E. now apply trimStart_head in E.
Qed.

Lemma indexOf_unfold (p s : jstring) :
  indexOf p s =
  if startsWith p s then Some 0
  else match s with
       | [] => None
       | _ :: s' => option_map S (indexOf p s')
       end.
Proof. destruct s; reflexivity. Qed.


Lemma firstn_prefix {A : Type} (pre rest : list A) :
  firstn (length (pre ++ rest) - length rest) (pre ++ rest) = pre.
Proof.
  rewrite length_app, Nat.add_sub. rewrite firstn_app, Nat.sub_diag, firstn_all.
  simpl. apply app_nil_r.
Qed.

Lemma skipn_prefix {A : Type} (pre rest : list A) :
  skipn (length pre) (pre ++ rest) = rest.
Proof. rewrite skipn_app, skipn_all, Nat.sub_diag. reflexivity. Qed.


Lemma matchAllFrom_exec (r : regex) (s : jstring) :
  forall i skip m,
    In m (matchAllFrom r i skip s) -> exists i' s', execAt r i' s' = Some m.
Proof.
  induction s as [|c s IH]; intros i skip m H.
  - destruct skip; simpl in H; [|contradiction].
    destruct (execAt r i []) as [m0|] eqn:E; [|contradiction].
    destruct H as [<-|[]]. eauto.
  - destruct skip; simpl in H; [|now apply IH in H].
    destruct (execAt r i (c :: s)) as [m0|] eqn:E; [|now apply IH in H].
    destruct H as [<-|H]; [eauto|now apply IH in H].
Qed.

Lemma run_group_in (n : nat) (r : regex) (s : jstring) (cs : captures) s' cs' :
  In (s', cs') (run (RGroup n r) s cs) ->
  exists c0, In (s', c0) (run r s cs)
             /\ cs' = (n, firstn (length s - length s') s) :: c0.
Proof.
  simpl. intros H. apply in_map_iff in H as ([s1 c1] & E & H).
  simpl in E. inversion E; subst. eauto.
Qed.





Lemma parseEntry_raw (m : rmatch) : raw (parseEntry m) = text m.
Proof. unfold parseEntry. now destruct (truthy (trim (group 1 m))). Qed.



End EntryFacts.

(* ================================================================== *)
(** ** The alias of a parsed specifier is never empty *)
(* ================================================================== *)

Section AliasFacts.

Lemma starGreedy_consumed (p : codeunit -> bool) (s s' : jstring) :
  In s' (starGreedy p s) -> exists pre, s = pre ++ s' /\ forallb p pre = true.
Proof.
  induction s as [|c s IH]; simpl.
  - intros [<-|[]]. now exists [].
  - destruct (p c) eqn:Hc.
    + intros H. apply in_app_or in H as [H|[<-|[]]].
      * destruct (IH H) as (pre & -> & Hp). exists (c :: pre). simpl. now rewrite Hc.
      * now exists [].
    + intros [<-|[]]. now exists [].
Qed.

Lemma run_plus_consumed (p : codeunit -> bool) (s : jstring) (cs : captures) s' cs' :
  In (s', cs') (run (RPlus p) s cs) ->
  exists c pre, s = (c :: pre) ++ s' /\ forallb p (c :: pre) = true.
Proof.
  unfold RPlus. cbn [run]. intros H.
  apply in_flat_map in H as ([s0 c0] & H0 & H1). cbn [fst snd] in H1.
  destruct s as [|c s]; [contradiction|]. destruct (p c) eqn:Hc; [|contradiction].
  destruct H0 as [H0|[]]. inversion H0; subst.
  apply in_map_iff in H1 as (x & Hx & H1). inversion Hx; subst.
  apply starGreedy_consumed in H1 as (pre & -> & Hp).
  exists c, pre. simpl. now rewrite Hc.
Qed.

(** The text of a match is what [run] consumed. *)
Lemma execAt_split (r : regex) (i : nat) (s : jstring) (m : rmatch) :
  execAt r i s = Some m ->
  exists rest, s = text m ++ rest /\ index m = i
               /\ In (rest, groups m) (run r s []).
Proof.
  unfold execAt. destruct (run r s []) as [|[rest cs] l] eqn:E; [discriminate|].
  intros H. inversion H; subst; clear H. cbn [text index groups].
  assert (Hin : In (rest, cs) (run r s [])) by (rewrite E; now left).
  pose proof Hin as Hs. apply run_sound in Hs as [[pre ->] _].
  exists rest. rewrite firstn_prefix. rewrite <- E. auto.
Qed.

(** [s.match(r)] reports where the match stands in [s]. *)
Lemma matchFrom_split (r : regex) (s : jstring) :
  forall i m,
    matchFrom r i s = Some m ->
    exists pre post,
      s = pre ++ text m ++ post /\ index m = i + length pre
      /\ In (post, groups m) (run r (text m ++ post) []).
Proof.
  induction s as [|c s IH]; intros i m H; cbn [matchFrom] in H.
  - destruct (execAt r i []) as [m0|] eqn:E; [|discriminate].
    inversion H; subst. apply execAt_split in E as (rest & E & Hi & Hin).
    exists [], rest. cbn [app length]. rewrite Nat.add_0_r. rewrite <- E. auto.
  - destruct (execAt r i (c :: s)) as [m0|] eqn:E.
    + inversion H; subst. apply execAt_split in E as (rest & E & Hi & Hin).
      exists [], rest. cbn [app length]. rewrite Nat.add_0_r. rewrite <- E. auto.
    + apply IH in H as (pre & post & -> & Hi & Hin).
      exists (c :: pre), post. cbn [app length]. split; [reflexivity|].
      split; [lia|assumption].
Qed.

(** A match of [\s+as\s+] ends with a whitespace. *)
Lemma as_match_end (s rest : jstring) (cs : captures) :
  In (rest, cs) (run AS_REGEX s []) ->
  exists u c, s = (u ++ [c]) ++ rest /\ isSpace c = true.
Proof.
  unfold AS_REGEX. cbn [RSeqs run]. intros H.
  apply in_flat_map in H as ([s1 c1] & H1 & H). cbn [fst snd] in H.
  apply in_flat_map in H as ([s2 c2] & H2 & H3). cbn [fst snd] in H3.
  apply run_sound in H1 as [[pre1 ->] _].
  apply (run_sound (RLit (js "as"))) in H2 as [[pre2 ->] _].
  apply run_plus_consumed in H3 as (c & pre3 & -> & Hp).
  destruct (exists_last (l := c :: pre3) ltac:(discriminate)) as (v & d & E).
  rewrite E in Hp |- *. exists (pre1 ++ pre2 ++ v), d. split.
  - now rewrite <- !app_assoc.
  - rewrite forallb_app in Hp. apply andb_true_iff in Hp as [_ Hd].
    simpl in Hd. now rewrite andb_true_r in Hd.
Qed.

Lemma trimStart_nil (s : jstring) : trimStart s = [] -> forallb isSpace s = true.
Proof.
  induction s as [|c s IH]; [reflexivity|]. simpl.
  destruct (isSpace c); [exact IH|discriminate].
Qed.

Lemma trim_nil (s : jstring) : trim s = [] -> forallb isSpace s = true.
Proof.
  intros H. destruct (trim_split s) as (lead & trail & E & W1 & W2).
  rewrite H in E. rewrite E, forallb_app, W1. exact W2.
Qed.

(** [trim s] does not end with a whitespace. *)
Lemma trim_last (s v : jstring) (d : codeunit) :
  trim s = v ++ [d] -> isSpace d = false.
Proof.
  unfold trim, trimEnd. intros H.
  apply (f_equal (@rev N)) in H. rewrite rev_involutive, rev_app_distr in H.
  simpl in H. now apply trimStart_head in H.
Qed.

Lemma ends_with_space (w post : jstring) (c : codeunit) :
  isSpace c = true -> forallb isSpace post = true ->
  exists v d, (w ++ [c]) ++ post = v ++ [d] /\ isSpace d = true.
Proof.
  intros Hc Hp. destruct post as [|x post].
  - exists w, c. now rewrite app_nil_r.
  - destruct (exists_last (l := x :: post) ltac:(discriminate)) as (v & d & E).
    rewrite E in Hp |- *. exists ((w ++ [c]) ++ v), d. split.
    + now rewrite <- !app_assoc.
    + rewrite forallb_app in Hp. apply andb_true_iff in Hp as [_ Hd].
      simpl in Hd. now rewrite andb_true_r in Hd.
Qed.

(** What follows a match of [\s+as\s+] in a trimmed text has a character
    that is no whitespace. *)
Lemma alias_nonempty (x : jstring) (a : rmatch) :
  match_ AS_REGEX (trim x) = Some a ->
  trim (sliceFrom (index a + length (text a)) (trim x)) <> [].
Proof.
  intros H. apply matchFrom_split in H as (pre & post & E & Hi & Hin).
  apply as_match_end in Hin as (u & c & Et & Hc).
  apply app_inv_tail in Et.
  assert (K : sliceFrom (index a + length (text a)) (trim x) = post).
  { unfold sliceFrom. rewrite E at 1. rewrite Hi. cbn [Nat.add].
    rewrite app_assoc, <- length_app. apply skipn_prefix. }
  rewrite K. intros Hnil. apply trim_nil in Hnil.
  rewrite Et in E.
  destruct (@ends_with_space (pre ++ u) post c Hc Hnil) as (v & d & Ev & Hd).
  assert (E' : trim x = v ++ [d]).
  { rewrite E, <- Ev. now rewrite <- !app_assoc. }
  apply trim_last in E'. congruence.
Qed.

Lemma parseEntry_alias (m : rmatch) (sp : ImportSpec) (a : jstring) :
  spec (parseEntry m) = Some sp -> alias sp = Some a -> a <> [].
Proof.
  unfold parseEntry.
  destruct (truthy (trim (group 1 m))); cbn [negb spec]; [|discriminate].
  set (trimmed := trim (group 1 m)).
  set (isTy := startsWith (js "type ") trimmed).
  replace (if isTy then trim (sliceFrom 5 trimmed) else trimmed)
    with (trim (if isTy then sliceFrom 5 trimmed else group 1 m))
    by (now destruct isTy).
  set (rest := trim (if isTy then sliceFrom 5 trimmed else group 1 m)).
  intros H. injection H as <-. cbn [alias].
  destruct (match_ AS_REGEX rest) as [am|] eqn:E; [|discriminate].
  intros H. injection H as <-. now apply alias_nonempty.
Qed.

End AliasFacts.

(* ================================================================== *)
(** ** Facts about the summary *)
(* ================================================================== *)

Section SummaryFacts.




Lemma rawStep_eq (u : jstring) (sm : list jstring) (r : jstring * jstring) :
  rawStep (u, sm) r =
  if includes (fst r) u
  then (splitJoin (fst r) (snd r) u, sm ++ [rawLine (fst r) (snd r)])
  else (u, sm).
Proof. reflexivity. Qed.


Lemma Subseq_nil_l {A : Type} (l : list A) : Subseq [] l.
Proof. induction l; constructor; assumption. Qed.





End SummaryFacts.

(* ================================================================== *)
(** ** The raw pass on a text with one legacy string *)
(* ================================================================== *)

Section SingleOccurrence.

Lemma hasChar_app (c : codeunit) (a b : jstring) :
  hasChar c (a ++ b) = hasChar c a || hasChar c b.
Proof. apply existsb_app. Qed.

Lemma startsWith_head_absent (c : codeunit) (p s : jstring) :
  hasChar c s = false -> startsWith (c :: p) s = false.
Proof.
  destruct s as [|x s]; [reflexivity|]. simpl.
  intros H. apply orb_false_iff in H as [H _]. now rewrite H.
Qed.

Lemma startsWith_cons (c : codeunit) (p : jstring) (x : codeunit) (s : jstring) :
  startsWith (c :: p) (x :: s) = (c =? x)%N && startsWith p s.
Proof. reflexivity. Qed.

Lemma includes_head_absent (c : codeunit) (p s : jstring) :
  hasChar c s = false -> includes (c :: p) s = false.
Proof.
  induction s as [|x s IH]; [reflexivity|]. intros H.
  cbn [includes]. rewrite startsWith_head_absent by exact H.
  simpl in H. apply orb_false_iff in H as [_ H]. now apply IH.
Qed.

Lemma includes_past (c : codeunit) (p a x : jstring) :
  hasChar c a = false -> includes (c :: p) (a ++ x) = includes (c :: p) x.
Proof.
  induction a as [|y a IH]; [reflexivity|]. intros H.
  change ((y :: a) ++ x) with (y :: (a ++ x)). cbn [includes].
  simpl in H. apply orb_false_iff in H as [Hy H].
  cbn [startsWith]. rewrite Hy. cbn [andb orb]. now apply IH.
Qed.

Lemma splitJoinFrom_past (c : codeunit) (p by_ a x : jstring) :
  hasChar c a = false ->
  splitJoinFrom (c :: p) by_ 0 (a ++ x) = a ++ splitJoinFrom (c :: p) by_ 0 x.
Proof.
  induction a as [|y a IH]; [reflexivity|]. intros H.
  simpl in H. apply orb_false_iff in H as [Hy H].
  change ((y :: a) ++ x) with (y :: (a ++ x)).
  rewrite splitJoinFrom_miss by (cbn [startsWith]; now rewrite Hy).
  rewrite IH by assumption. reflexivity.
Qed.

Lemma splitJoinFrom_absent (c : codeunit) (p by_ s : jstring) :
  hasChar c s = false -> splitJoinFrom (c :: p) by_ 0 s = s.
Proof.
  intros H. rewrite <- (app_nil_r s) at 1.
  rewrite splitJoinFrom_past by assumption. simpl. apply app_nil_r.
Qed.

Lemma tildeTwice_shape (l : jstring) :
  tildeTwice l = true ->
  exists l', l = 126%N :: 126%N :: l' /\ hasChar 126%N l' = false.
Proof.
  destruct l as [|c1 [|c2 l']]; try discriminate. unfold tildeTwice.
  intros H. apply andb_true_iff in H as [H H3]. apply andb_true_iff in H as [H1 H2].
  apply N.eqb_eq in H1, H2. subst. exists l'. split; [reflexivity|].
  now apply negb_true_iff in H3.
Qed.

(** In [a ++ l ++ b], where only [l] has [~], a legacy string can only
    occur at the start of [l]. *)
Lemma includes_single (sep l a b : jstring) :
  tildeTwice sep = true -> tildeTwice l = true ->
  hasChar 126%N a = false -> hasChar 126%N b = false ->
  includes sep (a ++ l ++ b) = startsWith sep (l ++ b).
Proof.
  intros Hs Hl Ha Hb.
  destruct (tildeTwice_shape _ Hs) as (sep' & -> & Hs').
  destruct (tildeTwice_shape _ Hl) as (l' & -> & Hl').
  rewrite includes_past by assumption.
  assert (Hrest : hasChar 126%N (l' ++ b) = false)
    by (rewrite hasChar_app, Hl', Hb; reflexivity).
  change ((126%N :: 126%N :: l') ++ b) with (126%N :: 126%N :: (l' ++ b)).
  cbn [includes].
  rewrite includes_head_absent by exact Hrest.
  rewrite (startsWith_cons 126%N (126%N :: sep') 126%N (l' ++ b)).
  rewrite (@startsWith_head_absent 126%N sep' (l' ++ b) Hrest).
  now rewrite andb_false_r, !orb_false_r.
Qed.

Lemma rawStep_single_miss (sep l a b : jstring) (sm : list jstring) :
  tildeTwice sep = true -> tildeTwice l = true ->
  hasChar 126%N a = false -> hasChar 126%N b = false ->
  startsWith sep (l ++ b) = false ->
  rawStep (a ++ l ++ b, sm) (sep, COMPONENT_TARGET) = (a ++ l ++ b, sm).
Proof.
  intros Hs Hl Ha Hb Hm. rewrite rawStep_eq. cbn [fst snd].
  now rewrite includes_single, Hm.
Qed.

Lemma rawStep_single_hit (l a b : jstring) (sm : list jstring) :
  tildeTwice l = true ->
  hasChar 126%N a = false -> hasChar 126%N b = false ->
  rawStep (a ++ l ++ b, sm) (l, COMPONENT_TARGET)
  = (a ++ COMPONENT_TARGET ++ b, sm ++ [rawLine l COMPONENT_TARGET]).
Proof.
  intros Hl Ha Hb. rewrite rawStep_eq. cbn [fst snd].
  rewrite includes_single, startsWith_app by assumption.
  destruct (tildeTwice_shape _ Hl) as (l' & E & _).
  f_equal. rewrite E at 1. cbn [splitJoin]. rewrite <- E.
  rewrite E at 1. rewrite splitJoinFrom_past by assumption. rewrite <- E.
  rewrite splitJoinFrom_hit by (rewrite E; discriminate).
  rewrite E at 1. now rewrite splitJoinFrom_absent.
Qed.

Lemma rawStep_after (sep a b : jstring) (sm : list jstring) :
  tildeTwice sep = true ->
  hasChar 126%N a = false -> hasChar 126%N b = false ->
  rawStep (a ++ COMPONENT_TARGET ++ b, sm) (sep, COMPONENT_TARGET)
  = (a ++ COMPONENT_TARGET ++ b, sm).
Proof.
  intros Hs Ha Hb. rewrite rawStep_eq. cbn [fst snd].
  destruct (tildeTwice_shape _ Hs) as (sep' & -> & _).
  rewrite includes_head_absent; [reflexivity|].
  rewrite !hasChar_app, Ha, Hb. reflexivity.
Qed.

(** A listed legacy string that begins no other listed string is replaced
    as a whole, by its own rule. *)
Lemma rawPass_single (l a b : jstring) :
  In l rawLegacyStrings -> maximalIn rawLegacyStrings l = true ->
  hasChar 126%N a = false -> hasChar 126%N b = false ->
  rawPass (a ++ l ++ b, []) = (a ++ COMPONENT_TARGET ++ b, [rawLine l COMPONENT_TARGET]).
Proof.
  intros Hin Hmax Ha Hb. unfold rawLegacyStrings in Hin. simpl in Hin.
  unfold rawPass, RAW_PATH_REPLACEMENTS.
  destruct Hin as [<-|[<-|[<-|[<-|[<-|[]]]]]]; try discriminate Hmax;
    cbn [fold_left];
    repeat first
      [ rewrite rawStep_single_hit by (assumption || reflexivity)
      | rewrite rawStep_after by (assumption || reflexivity)
      | rewrite rawStep_single_miss
          by (assumption || reflexivity || (vm_compute; reflexivity)) ];
    reflexivity.
Qed.

End SingleOccurrence.

(* ================================================================== *)
(** ** The claims *)
(* ================================================================== *)













(** C5: the loop over the export statements hands [determineTransform] an
    empty list of specifiers, so an export from the bare legacy path is
    never rewritten, whatever its clause names; the same clause in an import
    statement is rewritten, and so is an export from a nested path. *)
Theorem C5_export_bare_path_left_alone
        (st : state) (i : nat) (fullStatement : jstring) (gs : captures) :
  determineTransform barePath [] = None
  /\ exportStep st (mkMatch i fullStatement ((1, barePath) :: gs)) = st
  /\ rewrite (js "export { Address } from '~~/components/scaffold-eth';")
     = mkResult (js "export { Address } from '~~/components/scaffold-eth';") []
  /\ updatedContent (rewrite (js "import { Address } from '~~/components/scaffold-eth';"))
     = js "import { Address } from '@scaffold-ui/components';"
  /\ updatedContent (rewrite (js "export { Address } from '~~/components/scaffold-eth/Address';"))
     = js "export { Address } from '@scaffold-ui/components';".
Proof.
  split; [reflexivity|]. split; [now apply exportStep_none|].
  repeat split; evaluate.
Qed.

Lemma nestedPaths_raw (p : jstring) : In p nestedPaths <-> In p rawLegacyStrings.
Proof. unfold nestedPaths, rawLegacyStrings. simpl. tauto. Qed.

Lemma nestedPaths_distinct : NoDup (barePath :: nestedPaths).
Proof.
  unfold nestedPaths. cbn [map].
  repeat (constructor;
          [ cbn [In]; intros H;
            repeat (destruct H as [H|H]; [apply strEq_eq in H; vm_compute in H; discriminate|]);
            exact H
          | ]).
  constructor.
Qed.

(** C6, as the spec states it, fails: the nested paths of the table are
    five, not four. *)
Lemma C6_counterexample :
  length nestedPaths = 5
  /\ NoDup nestedPaths
  /\ (forall p, In p nestedPaths ->
        p <> barePath /\ forall specs, determineTransform p specs = Some componentsTransform)
  /\ ~ (exists four : list jstring,
          length four = 4
          /\ forall p, p <> barePath -> determineTransform p [] <> None -> In p four).
Proof.
  pose proof nestedPaths_distinct as D. inversion D as [|x l Hbare Hnested]; subst.
  assert (Hrule : forall p, In p nestedPaths ->
            p <> barePath /\ forall specs, determineTransform p specs = Some componentsTransform).
  { intros p Hp. split.
    - intros ->. contradiction.
    - intros specs. now apply determineTransform_nested, nestedPaths_raw. }
  split; [reflexivity|]. split; [assumption|]. split; [exact Hrule|].
  intros (four & Hlen & Hall).
  assert (Hincl : incl nestedPaths four).
  { intros p Hp. destruct (Hrule p Hp) as [Hne Hsome].
    apply Hall; [assumption|]. rewrite Hsome. discriminate. }
  pose proof (NoDup_incl_length Hnested Hincl) as Hle.
  rewrite Hlen in Hle. change (length nestedPaths) with 5 in Hle. lia.
Qed.

(** C6, amended: the table has the bare path, gated by the legacy
    specifiers, and five nested paths (the legacy strings of the raw table),
    all mapped to [@scaffold-ui/components], and one rename, [InputBase] to
    [BaseInput] with the old name kept as alias. *)
Theorem C6_rule_table :
  (forall p specs,
     (exists t, determineTransform p specs = Some t) <->
     (p = barePath /\ existsb isLegacySpecifier specs = true) \/ In p nestedPaths)
  /\ (forall p specs t,
        determineTransform p specs = Some t ->
        newPath t = js "@scaffold-ui/components"
        /\ renameSpecifiers t = Some COMPONENT_SPECIFIER_RENAMES)
  /\ length nestedPaths = 5
  /\ NoDup (barePath :: nestedPaths)
  /\ (forall p, In p nestedPaths <-> In p (map fst RAW_PATH_REPLACEMENTS))
  /\ (forall r, In r RAW_PATH_REPLACEMENTS -> snd r = js "@scaffold-ui/components")
  /\ (forall key rule,
        ownProperty COMPONENT_SPECIFIER_RENAMES key = Some rule <->
        key = js "InputBase" /\ rule = mkRule (js "BaseInput") (Some true)).
Proof.
  split.
  { intros p specs. split.
    - intros [t H]. apply determineTransform_some in H as [_ [H|H]];
        [now left|right; now apply nestedPaths_raw].
    - intros [[-> H]|H].
      + rewrite determineTransform_bare, H. eauto.
      + apply nestedPaths_raw in H. rewrite (determineTransform_nested _ H). eauto. }
  split.
  { intros p specs t H. apply determineTransform_some in H as [-> _]. now split. }
  split; [reflexivity|]. split; [apply nestedPaths_distinct|].
  split; [apply nestedPaths_raw|].
  split.
  { unfold RAW_PATH_REPLACEMENTS. simpl.
    intros r [<-|[<-|[<-|[<-|[<-|[]]]]]]; reflexivity. }
  intros key rule. unfold COMPONENT_SPECIFIER_RENAMES. cbn [ownProperty].
  destruct (strEq (js "InputBase") key) eqn:E.
  - apply strEq_eq in E. subst key. split.
    + intros H. inversion H. now split.
    + intros [_ ->]. reflexivity.
  - split; [discriminate|]. intros [-> _]. now rewrite strEq_refl in E.
Qed.

Lemma C6_rule_table_witness :
  determineTransform (js "~~/components/scaffold-eth/Address") [js "Foo"]
  = Some componentsTransform
  /\ newPath componentsTransform = js "@scaffold-ui/components"
  /\ renameSpecifiers componentsTransform = Some COMPONENT_SPECIFIER_RENAMES.
Proof.
  assert (H : determineTransform (js "~~/components/scaffold-eth/Address") [js "Foo"]
              = Some componentsTransform) by reflexivity.
  split; [exact H|].
  exact (proj1 (proj2 C6_rule_table) _ _ _ H).
Defined.



Lemma noLaterExtension_spec (ls : list jstring) :
  noLaterExtension ls = true ->
  forall pre x post, ls = pre ++ x :: post ->
  forall y, In y post -> startsWith x y = false.
Proof.
  induction ls as [|l ls IH]; intros H pre x post E y Hy.
  - destruct pre; discriminate.
  - cbn [noLaterExtension] in H. apply andb_true_iff in H as [H1 H2].
    destruct pre as [|p pre]; simpl in E; inversion E; subst.
    + apply negb_true_iff. revert y Hy. now apply forallb_forall.
    + now apply (IH H2 pre x post eq_refl).
Qed.

(** C8: after the raw pass no listed legacy string is left anywhere in the
    text; no string of the list begins a later one, so a nested path meets
    its own rule before the rule of its shorter beginning; and a listed
    string that begins no other is replaced as a whole. *)
Theorem C8_raw_fallback (content filePath : jstring) :
  (forall l, In l (map fst RAW_PATH_REPLACEMENTS) ->
     includes l (updatedContent (transformContent content filePath)) = false)
  /\ (forall pre x post, map fst RAW_PATH_REPLACEMENTS = pre ++ x :: post ->
      forall y, In y post -> startsWith x y = false)
  /\ (forall l a b,
        In l (map fst RAW_PATH_REPLACEMENTS) ->
        maximalIn (map fst RAW_PATH_REPLACEMENTS) l = true ->
        hasChar 126%N a = false -> hasChar 126%N b = false ->
        rawPass (a ++ l ++ b, [])
        = (a ++ COMPONENT_TARGET ++ b, [rawLine l COMPONENT_TARGET]))
  /\ rewrite (js "Use `~~/components/scaffold-eth/Input/AddressInput` in your page.")
     = mkResult (js "Use `@scaffold-ui/components` in your page.")
         [rawLine (js "~~/components/scaffold-eth/Input/AddressInput") COMPONENT_TARGET].
Proof.
  split.
  { intros l Hl. destruct (transformContent_clean content filePath) as [Hi Ha].
    now apply rawLegacy_absent. }
  split; [now apply noLaterExtension_spec|].
  split; [intros l a b; apply rawPass_single|].
  vm_compute. reflexivity.
Qed.

Lemma C8_raw_fallback_witness :
  let l := js "~~/components/scaffold-eth/Input/EtherInput" in
  let a := js "# Notes: import from " in
  let b := js " instead." in
  (In l (map fst RAW_PATH_REPLACEMENTS)
   /\ maximalIn (map fst RAW_PATH_REPLACEMENTS) l = true
   /\ hasChar 126%N a = false /\ hasChar 126%N b = false)
  /\ rawPass (a ++ l ++ b, [])
     = (js "# Notes: import from @scaffold-ui/components instead.",
        [rawLine l COMPONENT_TARGET]).
Proof.
  intros l a b.
  assert (Hl : In l (map fst RAW_PATH_REPLACEMENTS)) by (right; left; reflexivity).
  assert (Hm : maximalIn (map fst RAW_PATH_REPLACEMENTS) l = true) by reflexivity.
  assert (Ha : hasChar 126%N a = false) by reflexivity.
  assert (Hb : hasChar 126%N b = false) by reflexivity.
  split; [now repeat split|].
  exact (proj1 (proj2 (proj2 (C8_raw_fallback [] []))) l a b Hl Hm Ha Hb).
Defined.



(** C10: the raw pass replaces a listed legacy string wherever it stands,
    so a path that only extends one, and that no rule of
    [determineTransform] covers, is changed all the same. *)
Theorem C10_raw_pass_rewrites_extensions :
  (forall specs,
     determineTransform (js "~~/components/scaffold-eth/Input/Other") specs = None)
  /\ (forall specs,
        determineTransform (js "~~/components/scaffold-eth/Inputs") specs = None)
  /\ rewrite (js "import { Foo } from '~~/components/scaffold-eth/Input/Other';")
     = mkResult (js "import { Foo } from '@scaffold-ui/components/Other';")
         [rawLine inputPath COMPONENT_TARGET]
  /\ rewrite (js "import { Foo } from '~~/components/scaffold-eth/Inputs';")
     = mkResult (js "import { Foo } from '@scaffold-ui/componentss';")
         [rawLine inputPath COMPONENT_TARGET]
  /\ updatedContent (rewrite (js "import { Foo } from '~~/components/scaffold-eth/Input/Other';"))
     <> js "import { Foo } from '~~/components/scaffold-eth/Input/Other';".
Proof.
  split; [intros specs; reflexivity|]. split; [intros specs; reflexivity|].
  split; [evaluate|]. split; [evaluate|].
  vm_compute. discriminate.
Qed.

(* ================================================================== *)
(** ** How the matcher goes through a regular expression *)
(* ================================================================== *)

Section RunFacts.

Lemma run_seq_in (r1 r2 : regex) (s : jstring) (cs : captures) s' cs' :
  In (s', cs') (run (RSeq r1 r2) s cs) ->
  exists s1 c1, In (s1, c1) (run r1 s cs) /\ In (s', cs') (run r2 s1 c1).
Proof.
  cbn [run]. intros H. apply in_flat_map in H as ([s1 c1] & H1 & H2). eauto.
Qed.

Lemma run_lit_in (l s : jstring) (cs : captures) s' cs' :
  In (s', cs') (run (RLit l) s cs) -> s = l ++ s' /\ cs' = cs.
Proof.
  cbn [run]. destruct (startsWith l s) eqn:E; [|contradiction].
  intros [H|[]]. inversion H; subst. split; [|reflexivity].
  now apply startsWith_split.
Qed.

Lemma run_cls_in (p : codeunit -> bool) (s : jstring) (cs : captures) s' cs' :
  In (s', cs') (run (RCls p) s cs) -> exists c, s = c :: s' /\ p c = true /\ cs' = cs.
Proof.
  cbn [run]. destruct s as [|c s]; [contradiction|].
  destruct (p c) eqn:E; [|contradiction].
  intros [H|[]]. inversion H; subst. eauto.
Qed.

Lemma starLazy_consumed (p : codeunit -> bool) (s s' : jstring) :
  In s' (starLazy p s) -> exists pre, s = pre ++ s' /\ forallb p pre = true.
Proof.
  induction s as [|c s IH]; simpl.
  - intros [<-|[]]. now exists [].
  - destruct (p c) eqn:Hc.
    + intros [<-|H]; [now exists []|].
      destruct (IH H) as (pre & -> & Hp). exists (c :: pre). simpl. now rewrite Hc.
    + intros [<-|[]]. now exists [].
Qed.

Lemma run_star_in (g : bool) (p : codeunit -> bool) (s : jstring) (cs : captures) s' cs' :
  In (s', cs') (run (RStar g p) s cs) ->
  exists pre, s = pre ++ s' /\ forallb p pre = true /\ cs' = cs.
Proof.
  cbn [run]. intros H. apply in_map_iff in H as (x & Hx & H). inversion Hx; subst.
  destruct g.
  - apply starGreedy_consumed in H as (pre & E & Hp). eauto.
  - apply starLazy_consumed in H as (pre & E & Hp). eauto.
Qed.

Lemma run_plus_in (p : codeunit -> bool) (s : jstring) (cs : captures) s' cs' :
  In (s', cs') (run (RPlus p) s cs) ->
  exists c pre, s = (c :: pre) ++ s' /\ forallb p (c :: pre) = true /\ cs' = cs.
Proof.
  unfold RPlus. intros H. apply run_seq_in in H as (s1 & c1 & H1 & H2).
  apply run_cls_in in H1 as (c & -> & Hc & ->).
  apply run_star_in in H2 as (pre & -> & Hp & ->).
  exists c, pre. cbn [forallb]. rewrite Hc, Hp. auto.
Qed.

Lemma run_opt_lit_in (l s : jstring) (cs : captures) s' cs' :
  In (s', cs') (run (ROpt (RLit l)) s cs) ->
  exists pre, s = pre ++ s' /\ (pre = [] \/ pre = l) /\ cs' = cs.
Proof.
  unfold ROpt. cbn [run]. intros H. apply in_app_or in H as [H|H].
  - destruct (startsWith l s) eqn:E; [|contradiction].
    destruct H as [H|[]]. inversion H; subst. exists l.
    split; [now apply startsWith_split|auto].
  - destruct H as [H|[]]. inversion H; subst. exists []. auto.
Qed.

Lemma run_group_capture (n : nat) (r : regex) (pre s' : jstring) (cs : captures) cs' :
  In (s', cs') (run (RGroup n r) (pre ++ s') cs) ->
  exists c0, In (s', c0) (run r (pre ++ s') cs) /\ cs' = (n, pre) :: c0.
Proof.
  intros H. apply run_group_in in H as (c0 & H & ->).
  exists c0. split; [assumption|]. now rewrite firstn_prefix.
Qed.

End RunFacts.

(* ================================================================== *)
(** ** The statements the locators find *)
(* ================================================================== *)

Section StatementFacts.

(** What a match of a statement locator is made of. *)
Lemma statement_shape (keyword : jstring) (i : nat) (s : jstring) (m : rmatch) :
  execAt (statementRegex keyword) i s = Some m ->
  exists ws clause ws' q q' semi,
    text m = keyword ++ ws ++ clause ++ js "from" ++ ws' ++ [q] ++ group 1 m
             ++ [q'] ++ semi
    /\ ws <> [] /\ forallb isSpace ws = true
    /\ ws' <> [] /\ forallb isSpace ws' = true
    /\ isQuote q = true /\ isQuote q' = true
    /\ group 1 m <> [] /\ forallb notQuote (group 1 m) = true
    /\ (semi = [] \/ semi = js ";").
Proof.
  intros H. apply execAt_split in H as (rest & Es & _ & H).
  unfold statementRegex in H. cbn [RSeqs] in H.
  apply run_seq_in in H as (s1 & c1 & H1 & H).
  apply run_lit_in in H1 as [E1 ->].
  apply run_seq_in in H as (s2 & c2 & H2 & H).
  apply run_plus_in in H2 as (w & ws & E2 & Hws & ->).
  apply run_seq_in in H as (s3 & c3 & H3 & H).
  apply run_star_in in H3 as (clause & E3 & _ & ->).
  apply run_seq_in in H as (s4 & c4 & H4 & H).
  apply run_lit_in in H4 as [E4 ->].
  apply run_seq_in in H as (s5 & c5 & H5 & H).
  apply run_plus_in in H5 as (w' & ws' & E5 & Hws' & ->).
  apply run_seq_in in H as (s6 & c6 & H6 & H).
  apply run_cls_in in H6 as (q & E6 & Hq & ->).
  apply run_seq_in in H as (s7 & c7 & H7 & H).
  pose proof H7 as H7'. apply run_sound in H7' as [[path E7] _].
  rewrite E7 in H7. apply run_group_capture in H7 as (c0 & H7 & ->).
  rewrite <- E7 in H7. apply run_plus_in in H7 as (pc & ppre & E7' & Hpath & ->).
  assert (Epath : path = pc :: ppre).
  { rewrite E7 in E7'. now apply app_inv_tail in E7'. }
  apply run_seq_in in H as (s8 & c8 & H8 & H).
  apply run_cls_in in H8 as (q' & E8 & Hq' & ->).
  apply run_opt_lit_in in H as (semi & E9 & Hsemi & Hg).
  assert (G : group 1 m = path).
  { unfold group. now rewrite Hg. }
  exists (w :: ws), clause, (w' :: ws'), q, q', semi.
  rewrite G. split.
  - apply (app_inv_tail rest). rewrite <- Es.
    rewrite E1, E2, E3, E4, E5, E6, E7, E8, E9.
    rewrite <- !app_assoc. cbn [app]. reflexivity.
  - rewrite Epath. repeat split; try discriminate; assumption.
Qed.

Lemma import_regex_is_statement : IMPORT_REGEX = statementRegex (js "import").
Proof. reflexivity. Qed.

Lemma export_regex_is_statement : EXPORT_FROM_REGEX = statementRegex (js "export").
Proof. reflexivity. Qed.

End StatementFacts.

(* ================================================================== *)
(** ** Replacing a path that occurs *)
(* ================================================================== *)

Section ReplaceFacts.

Lemma indexOf_split (p s : jstring) :
  forall i, indexOf p s = Some i -> s = firstn i s ++ p ++ skipn (i + length p) s.
Proof.
  induction s as [|c s IH]; intros i; rewrite indexOf_unfold.
  - destruct (startsWith p []) eqn:E; [|discriminate].
    intros H. inversion H; subst. cbn [firstn app Nat.add].
    now apply startsWith_split.
  - destruct (startsWith p (c :: s)) eqn:E.
    + intros H. inversion H; subst. cbn [firstn app Nat.add].
      now apply startsWith_split.
    + destruct (indexOf p s) as [j|] eqn:Ej; [|discriminate].
      intros H. inversion H; subst. cbn [firstn skipn Nat.add app].
      f_equal. now apply IH.
Qed.

Lemma includes_indexOf (p s : jstring) :
  includes p s = true -> exists i, indexOf p s = Some i.
Proof.
  intros H. destruct (indexOf p s) as [i|] eqn:E; [eauto|].
  apply indexOf_none in E. congruence.
Qed.

(** A replacement without [$] is taken as it is. *)
Lemma getSubstitution_plain (matched preceding following template : jstring) :
  hasChar 36%N template = false ->
  getSubstitution matched preceding following template = template.
Proof.
  induction template as [|c t IH]; [reflexivity|]. intros H.
  cbn [hasChar existsb] in H. apply orb_false_iff in H as [Hc Ht].
  cbn [getSubstitution]. rewrite N.eqb_sym, Hc. f_equal. now apply IH.
Qed.

Lemma replace_plain (s p r : jstring) (i : nat) :
  indexOf p s = Some i -> hasChar 36%N r = false ->
  replace s p r = firstn i s ++ r ++ skipn (i + length p) s.
Proof.
  intros Hi Hr. unfold replace. rewrite Hi. now rewrite getSubstitution_plain.
Qed.

(** Replacing an occurrence by a text that starts otherwise changes the
    text. *)
Lemma replace_changes (s p' r' : jstring) (c d : codeunit) :
  includes (c :: p') s = true -> c <> d -> hasChar 36%N (d :: r') = false ->
  replace s (c :: p') (d :: r') <> s.
Proof.
  intros Hin Hcd Hr. apply includes_indexOf in Hin as [i Hi].
  rewrite (@replace_plain s (c :: p') (d :: r') i Hi Hr).
  pose proof (@indexOf_split (c :: p') s i Hi) as E.
  intros H. rewrite E in H at 3. apply app_inv_head in H.
  inversion H. congruence.
Qed.

End ReplaceFacts.

(* ================================================================== *)
(** ** Statements, default imports and exports *)
(* ================================================================== *)

(** X1: every statement the two locators find lies in the text, starts with
    its keyword and whitespace, and ends with [from], whitespace, a quote,
    the path, a quote and at most a semicolon; the path is not empty and has
    no quote; the two quotes need not be the same character. *)
Theorem statement_matches_shape (content : jstring) (m : rmatch)
        (Hm : In m (matchAll IMPORT_REGEX content)
              \/ In m (matchAll EXPORT_FROM_REGEX content)) :
  occurs (text m) content
  /\ exists keyword ws clause ws' q q' semi,
       (keyword = js "import" \/ keyword = js "export")
       /\ text m = keyword ++ ws ++ clause ++ js "from" ++ ws' ++ [q] ++ group 1 m
                   ++ [q'] ++ semi
       /\ ws <> [] /\ forallb isSpace ws = true
       /\ ws' <> [] /\ forallb isSpace ws' = true
       /\ isQuote q = true /\ isQuote q' = true
       /\ group 1 m <> [] /\ forallb notQuote (group 1 m) = true
       /\ (semi = [] \/ semi = js ";").
Proof.
  destruct Hm as [Hm|Hm].
  - split; [now apply matchAll_sound in Hm|].
    apply matchAllFrom_exec in Hm as (i & s & He).
    rewrite import_regex_is_statement in He.
    apply statement_shape in He as (ws & clause & ws' & q & q' & semi & He).
    exists (js "import"), ws, clause, ws', q, q', semi. split; [now left|exact He].
  - split; [now apply matchAll_sound in Hm|].
    apply matchAllFrom_exec in Hm as (i & s & He).
    rewrite export_regex_is_statement in He.
    apply statement_shape in He as (ws & clause & ws' & q & q' & semi & He).
    exists (js "export"), ws, clause, ws', q, q', semi. split; [now right|exact He].
Qed.

Lemma statement_matches_shape_witness :
  let content := js "// x" ++ [newline] ++ js "import { a } from 'p" ++ [dquote] ++ js ";" in
  let m := mkMatch 5 (js "import { a } from 'p" ++ [dquote] ++ js ";") [(1, js "p")] in
  In m (matchAll IMPORT_REGEX content)
  /\ occurs (text m) content.
Proof.
  intros content m.
  assert (Hm : In m (matchAll IMPORT_REGEX content)) by (vm_compute; left; reflexivity).
  split; [exact Hm|].
  exact (proj1 (statement_matches_shape content m (or_introl Hm))).
Defined.

Lemma statement_contains_path (keyword : jstring) (i : nat) (s : jstring) (m : rmatch) :
  execAt (statementRegex keyword) i s = Some m -> occurs (group 1 m) (text m).
Proof.
  intros H. apply statement_shape in H as (ws & clause & ws' & q & q' & semi & E & _).
  rewrite E. exists (keyword ++ ws ++ clause ++ js "from" ++ ws' ++ [q]), ([q'] ++ semi).
  now rewrite <- !app_assoc.
Qed.

(** X2: an export statement whose path is one of the five nested paths is
    always rewritten: the step of the export loop replaces the statement in
    the working text by the statement with the first occurrence of the path
    replaced, and adds its line to the summary. *)
Theorem export_nested_path_step (content : jstring) (m : rmatch) (st : state)
        (Hm : In m (matchAll EXPORT_FROM_REGEX content))
        (Hpath : In (group 1 m) nestedPaths) :
  replace (text m) (group 1 m) COMPONENT_TARGET <> text m
  /\ exportChanges m = true
  /\ exportStep st m
     = (replace (fst st) (text m) (replace (text m) (group 1 m) COMPONENT_TARGET),
        snd st ++ [exportLine componentsTransform]).
Proof.
  apply matchAllFrom_exec in Hm as (i & s & He).
  rewrite export_regex_is_statement in He.
  apply statement_contains_path, includes_occurs in He.
  assert (Hne : replace (text m) (group 1 m) COMPONENT_TARGET <> text m).
  { apply nestedPaths_raw in Hpath.
    assert (Hl : legacyLike (group 1 m) = true).
    { unfold rawLegacyStrings in Hpath. simpl in Hpath.
      destruct Hpath as [<-|[<-|[<-|[<-|[<-|[]]]]]]; reflexivity. }
    apply legacyLike_shape in Hl as (p' & Ep & _). rewrite Ep in He |- *.
    rewrite target_shape. apply replace_changes; [assumption|discriminate|reflexivity]. }
  assert (Hd : determineTransform (group 1 m) [] = Some componentsTransform)
    by now apply determineTransform_nested, nestedPaths_raw.
  apply strEq_neq in Hne.
  split; [now apply strEq_neq|].
  unfold exportChanges, exportStep. rewrite Hd. cbn [newPath componentsTransform].
  rewrite Hne. split; reflexivity.
Qed.

Lemma export_nested_path_step_witness :
  let content := js "export * from '~~/components/scaffold-eth/Input';" in
  let m := mkMatch 0 content [(1, js "~~/components/scaffold-eth/Input")] in
  In m (matchAll EXPORT_FROM_REGEX content)
  /\ In (group 1 m) nestedPaths
  /\ exportStep (content, []) m
     = (js "export * from '@scaffold-ui/components';", [exportLine componentsTransform]).
Proof.
  intros content m.
  assert (Hm : In m (matchAll EXPORT_FROM_REGEX content)) by (vm_compute; left; reflexivity).
  assert (Hp : In (group 1 m) nestedPaths) by (left; reflexivity).
  split; [exact Hm|]. split; [exact Hp|].
  exact (eq_trans (proj2 (proj2 (export_nested_path_step content m (content, []) Hm Hp)))
           ltac:(vm_compute; reflexivity)).
Defined.

(** X3: the default import [extractDefaultImport] returns is an identifier:
    a letter, [_] or [$] followed by letters, digits, [_] and [$]; it is
    never the word [type]. *)
Theorem default_import_is_identifier (statement identifier : jstring)
        (H : extractDefaultImport statement = Some identifier) :
  (exists c r, identifier = c :: r
               /\ isIdentStart c = true /\ forallb isIdentPart r = true)
  /\ identifier <> js "type".
Proof.
  unfold extractDefaultImport in H.
  destruct (match_ DEFAULT_IMPORT_REGEX _) as [m|] eqn:Em; [|discriminate].
  destruct (strEq (group 1 m) (js "type")) eqn:Et; [discriminate|].
  inversion H; subst. split; [|now apply strEq_neq].
  apply matchFrom_split in Em as (pre & post & _ & _ & Hr).
  unfold DEFAULT_IMPORT_REGEX in Hr. cbn [RSeqs] in Hr.
  apply run_seq_in in Hr as (s1 & c1 & H1 & Hr).
  apply run_lit_in in H1 as [_ ->].
  apply run_seq_in in Hr as (s2 & c2 & H2 & Hr).
  apply run_plus_in in H2 as (w & ws & _ & _ & ->).
  apply run_seq_in in Hr as (s3 & c3 & H3 & Hr).
  pose proof H3 as H3'. apply run_sound in H3' as [[ident E3] _].
  rewrite E3 in H3. apply run_group_capture in H3 as (c0 & H3 & ->).
  rewrite <- E3 in H3.
  apply run_seq_in in H3 as (s2' & c2' & Ha & Hb).
  apply run_cls_in in Ha as (c & Ec & Hc & ->).
  apply run_star_in in Hb as (r & Er & Hr' & ->).
  assert (Eid : ident = c :: r).
  { rewrite Ec, Er in E3. change (c :: r ++ s3) with ((c :: r) ++ s3) in E3.
    now apply app_inv_tail in E3. }
  apply run_seq_in in Hr as (s4 & c4 & H4 & Hr).
  apply run_star_in in H4 as (_ & _ & _ & ->).
  assert (Hg : groups m = [(1, ident)]).
  { cbn [run] in Hr. apply in_app_or in Hr as [Hr|Hr].
    - destruct (startsWith _ s4); [|contradiction].
      destruct Hr as [Hr|[]]. now inversion Hr.
    - destruct (startsWith _ s4); [|contradiction].
      destruct Hr as [Hr|[]]. now inversion Hr. }
  unfold group. rewrite Hg. cbn [assoc Nat.eqb]. exists c, r. auto.
Qed.

Lemma default_import_is_identifier_witness :
  extractDefaultImport (js "import  $store1 ,{ a } from 'x'") = Some (js "$store1")
  /\ js "$store1" <> js "type".
Proof.
  assert (H : extractDefaultImport (js "import  $store1 ,{ a } from 'x'")
              = Some (js "$store1")) by (vm_compute; reflexivity).
  split; [exact H|].
  exact (proj2 (default_import_is_identifier _ H)).
Defined.

(* ================================================================== *)
(** ** The entries of a clause, one after the other *)
(* ================================================================== *)

Section EntrySequence.

(** The longest repetition comes first. *)
Lemma starGreedy_head (p : codeunit -> bool) (s : jstring) :
  exists pre rest l,
    starGreedy p s = rest :: l /\ s = pre ++ rest /\ forallb p pre = true
    /\ match rest with
       | [] => True
       | c :: _ => p c = false
       end.
Proof.
  induction s as [|c s (pre & rest & l & E & Es & Hp & Hr)]; cbn [starGreedy].
  - exists [], [], []. auto.
  - destruct (p c) eqn:Hc.
    + exists (c :: pre), rest, (l ++ [c :: s]). rewrite E, Es. cbn [forallb app].
      rewrite Hc, Hp. auto.
    + exists [], (c :: s), []. auto.
Qed.

Lemma execAt_entry_none (i : nat) (s : jstring) :
  match s with
  | [] => True
  | c :: _ => notComma c = false
  end ->
  execAt ENTRY_REGEX i s = None.
Proof.
  destruct s as [|c s]; [reflexivity|]. intros Hc.
  unfold execAt, ENTRY_REGEX, RPlus. cbn [run flat_map map app]. now rewrite Hc.
Qed.

Lemma execAt_head (r : regex) (i : nat) (s t rest : jstring) (cs : captures) l :
  run r s [] = (rest, cs) :: l -> s = t ++ rest ->
  execAt r i s = Some (mkMatch i t cs).
Proof.
  intros E ->. unfold execAt. rewrite E. now rewrite firstn_prefix.
Qed.

Lemma run_entry_head (c : codeunit) (s pre rest : jstring) l :
  notComma c = true -> starGreedy notComma s = rest :: l ->
  exists cs l',
    run ENTRY_REGEX (c :: s) []
    = (match rest with
       | x :: r => if (x =? 44)%N then r else rest
       | [] => rest
       end, cs) :: l'.
Proof.
  intros Hc E. unfold ENTRY_REGEX, RPlus, ROpt.
  cbn [run]. rewrite Hc. cbn [flat_map fst snd]. rewrite app_nil_r.
  cbn [run]. rewrite E. cbn [map flat_map fst snd run].
  destruct rest as [|x r].
  - cbn [startsWith js map list_ascii_of_string N_of_ascii app]. eauto.
  - destruct (x =? 44)%N eqn:Hx.
    + apply N.eqb_eq in Hx. subst x.
      change (startsWith (js ",") (44%N :: r)) with true.
      cbn [app map fst snd skipn length js list_ascii_of_string]. eauto.
    + replace (startsWith (js ",") (x :: r)) with false.
      * cbn [app map fst snd]. eauto.
      * change (js ",") with [44%N]. rewrite startsWith_cons.
        rewrite N.eqb_sym in Hx. now rewrite Hx.
Qed.

(** At a character that is no comma the [matcher] takes all the characters
    up to the next comma, and that comma. *)
Lemma execAt_entry_some (i : nat) (c : codeunit) (s : jstring) :
  notComma c = true ->
  exists m pre rest,
    execAt ENTRY_REGEX i (c :: s) = Some m
    /\ s = pre ++ rest /\ forallb notComma pre = true
    /\ ((rest = [] /\ text m = c :: pre)
        \/ (exists r, rest = 44%N :: r /\ text m = (c :: pre) ++ [44%N])).
Proof.
  intros Hc. destruct (starGreedy_head notComma s) as (pre & rest & l & E & Es & Hp & Hr).
  destruct (@run_entry_head c s pre rest l Hc E) as (cs & l' & R).
  destruct rest as [|x r].
  - exists (mkMatch i (c :: pre) cs), pre, [].
    split; [|auto]. apply (@execAt_head _ i _ _ _ _ _ R). rewrite Es. now rewrite !app_nil_r.
  - assert (Hx : x = 44%N).
    { unfold notComma in Hr. apply negb_false_iff, N.eqb_eq in Hr. exact Hr. }
    subst x. change (44 =? 44)%N with true in R. cbn iota in R.
    exists (mkMatch i ((c :: pre) ++ [44%N]) cs), pre, (44%N :: r).
    split; [|split; [assumption|split; [assumption|right; eauto]]].
    apply (@execAt_head _ i _ _ _ _ _ R). rewrite Es. cbn [app]. now rewrite <- app_assoc.
Qed.

Lemma matchAllFrom_skip (r : regex) (pre rest : jstring) (i : nat) :
  matchAllFrom r i (length pre) (pre ++ rest) = matchAllFrom r (i + length pre) 0 rest.
Proof.
  revert i. induction pre as [|c pre IH]; intros i.
  - cbn [length app]. now rewrite Nat.add_0_r.
  - cbn [length app matchAllFrom]. rewrite IH. f_equal. lia.
Qed.

Lemma dropLoneCommas_run (pre x : jstring) :
  forallb notComma pre = true ->
  dropLoneCommas false (pre ++ x) = pre ++ dropLoneCommas false x.
Proof.
  induction pre as [|c pre IH]; [reflexivity|]. intros H.
  cbn [forallb] in H. apply andb_true_iff in H as [Hc Hp].
  cbn [app dropLoneCommas]. unfold notComma in Hc. apply negb_true_iff in Hc.
  rewrite Hc. f_equal. now apply IH.
Qed.

(** The texts of the matches, in order, are the clause without its lone
    commas. *)
Lemma entry_texts (s : jstring) :
  forall i, concat (map text (matchAllFrom ENTRY_REGEX i 0 s)) = dropLoneCommas true s.
Proof.
  assert (G : forall n s, length s <= n -> forall i,
              concat (map text (matchAllFrom ENTRY_REGEX i 0 s)) = dropLoneCommas true s).
  { clear s. induction n as [|n IH]; intros s Hn i.
    - destruct s; [|simpl in Hn; lia]. cbn [matchAllFrom].
      now rewrite execAt_entry_none.
    - destruct s as [|c s]; [cbn [matchAllFrom]; now rewrite execAt_entry_none|].
      cbn [length] in Hn. destruct (notComma c) eqn:Hc.
      + destruct (@execAt_entry_some i c s Hc) as (m & pre & rest & Em & Es & Hp & Hcase).
        cbn [matchAllFrom]. rewrite Em. cbn [map concat].
        assert (Hd : dropLoneCommas true (c :: s) = c :: dropLoneCommas false s).
        { cbn [dropLoneCommas]. unfold notComma in Hc. apply negb_true_iff in Hc.
          now rewrite Hc. }
        rewrite Hd, Es, dropLoneCommas_run by assumption.
        destruct Hcase as [[-> Et]|(r & -> & Et)]; rewrite Et.
        * replace (length (c :: pre) - 1) with (length pre) by (cbn [length]; lia).
          rewrite matchAllFrom_skip. cbn [matchAllFrom].
          rewrite execAt_entry_none by exact I. reflexivity.
        * replace (length ((c :: pre) ++ [44%N]) - 1) with (length (pre ++ [44%N]))
            by (cbn [length app]; lia).
          change (pre ++ 44%N :: r) with (pre ++ [44%N] ++ r). rewrite app_assoc.
          rewrite matchAllFrom_skip. rewrite IH by (rewrite Es, length_app in Hn; simpl in Hn; lia).
          cbn [dropLoneCommas app]. change (44 =? 44)%N with true. cbn iota.
          now rewrite <- !app_assoc.
      + cbn [matchAllFrom]. rewrite execAt_entry_none by exact Hc.
        rewrite IH by lia. cbn [dropLoneCommas].
        unfold notComma in Hc. apply negb_false_iff in Hc. now rewrite Hc. }
  intros i. now apply (G (length s)).
Qed.

Lemma dropLoneCommas_keeps (s : jstring) :
  forall afterComma,
    (afterComma = true -> startsWith (js ",") s = false) ->
    includes (js ",,") s = false ->
    dropLoneCommas afterComma s = s.
Proof.
  induction s as [|c s IH]; intros b Hb Hi; [reflexivity|].
  cbn [includes] in Hi. apply orb_false_iff in Hi as [Hh Hi].
  cbn [dropLoneCommas]. destruct (c =? 44)%N eqn:Hc.
  - apply N.eqb_eq in Hc. subst c. destruct b.
    + specialize (Hb eq_refl). change (js ",") with [44%N] in Hb.
      rewrite startsWith_cons in Hb. discriminate.
    + f_equal. apply IH; [|assumption]. intros _.
      destruct s as [|d s]; [reflexivity|].
      change (js ",,") with [44%N; 44%N] in Hh. change (js ",") with [44%N].
      rewrite !startsWith_cons in Hh. rewrite startsWith_cons.
      now rewrite N.eqb_refl in Hh.
  - f_equal. apply IH; [discriminate|assumption].
Qed.

End EntrySequence.

(* ================================================================== *)
(** ** The names of the parsed specifiers *)
(* ================================================================== *)

Section NameFacts.

Lemma trimStart_fixed (s : jstring) :
  match s with
  | [] => True
  | c :: _ => isSpace c = false
  end ->
  trimStart s = s.
Proof. destruct s as [|c s]; [reflexivity|]. intros H. cbn. now rewrite H. Qed.

Lemma trim_idem (s : jstring) : trim (trim s) = trim s.
Proof.
  destruct (trim s) as [|c r] eqn:E; [reflexivity|].
  pose proof (trim_head _ E) as Hc.
  destruct (exists_last (l := c :: r) ltac:(discriminate)) as (v & d & Ev).
  assert (Hd : isSpace d = false).
  { apply (@trim_last s v d). now rewrite E. }
  unfold trim, trimEnd. rewrite (trimStart_fixed (c :: r)) by exact Hc.
  rewrite Ev, rev_app_distr. cbn [rev app].
  rewrite (trimStart_fixed (d :: rev v)) by exact Hd.
  cbn [rev]. now rewrite rev_involutive.
Qed.

(** A match of [\s+as\s+] starts with a whitespace. *)
Lemma as_match_start (s rest : jstring) (cs : captures) :
  In (rest, cs) (run AS_REGEX s []) ->
  exists c u, s = (c :: u) ++ rest /\ isSpace c = true.
Proof.
  unfold AS_REGEX. cbn [RSeqs]. intros H.
  apply run_seq_in in H as (s1 & c1 & H1 & H).
  apply run_plus_in in H1 as (c & pre & -> & Hp & _).
  apply run_sound in H as [[u ->] _].
  exists c, (pre ++ u). split; [cbn [app]; now rewrite <- ?app_assoc|].
  cbn [forallb] in Hp. now apply andb_true_iff in Hp as [Hc _].
Qed.

Lemma trim_nonempty_of_head (s : jstring) (c : codeunit) (r : jstring) :
  s = c :: r -> isSpace c = false -> trim s <> [].
Proof.
  intros -> Hc Ht. apply trim_nil in Ht. cbn [forallb] in Ht.
  rewrite Hc in Ht. discriminate.
Qed.

(** The part before a match of [\s+as\s+] in a trimmed text has a character
    that is no whitespace. *)
Lemma imported_nonempty (x : jstring) (a : rmatch) :
  match_ AS_REGEX (trim x) = Some a ->
  trim (sliceTo (index a) (trim x)) <> [].
Proof.
  intros H. apply matchFrom_split in H as (pre & post & E & Hi & Hin).
  apply as_match_start in Hin as (w & u & Et & Hw).
  apply app_inv_tail in Et.
  assert (K : sliceTo (index a) (trim x) = pre).
  { unfold sliceTo. rewrite E at 1. rewrite Hi. cbn [Nat.add].
    rewrite firstn_app, Nat.sub_diag, firstn_all. cbn [firstn]. apply app_nil_r. }
  rewrite K. destruct pre as [|c pre].
  - rewrite Et in E. cbn [app] in E. apply trim_head in E. congruence.
  - cbn [app] in E. apply trim_head in E.
    now apply (@trim_nonempty_of_head (c :: pre) c pre).
Qed.

(** After the marker [type ] of a trimmed text something is left. *)
Lemma rest_nonempty (x : jstring) :
  startsWith (js "type ") (trim x) = true ->
  trim (sliceFrom 5 (trim x)) <> [].
Proof.
  intros H. apply startsWith_split in H.
  change (length (js "type ")) with 5 in H. fold (sliceFrom 5 (trim x)) in H.
  intros Hnil. apply trim_nil in Hnil.
  destruct (@ends_with_space (js "type") (sliceFrom 5 (trim x)) 32%N eq_refl Hnil)
    as (v & d & Ev & Hd).
  change ((js "type" ++ [32%N]) ++ sliceFrom 5 (trim x))
    with (js "type " ++ sliceFrom 5 (trim x)) in Ev.
  rewrite <- H in Ev. apply trim_last in Ev. congruence.
Qed.

Lemma parseEntry_names (m : rmatch) (sp : ImportSpec) :
  spec (parseEntry m) = Some sp ->
  imported sp <> [] /\ trim (imported sp) = imported sp
  /\ forall a, alias sp = Some a -> a <> [] /\ trim a = a.
Proof.
  unfold parseEntry.
  destruct (truthy (trim (group 1 m))) eqn:T; cbn [negb spec]; [|discriminate].
  set (trimmed := trim (group 1 m)) in *.
  set (isTy := startsWith (js "type ") trimmed).
  assert (Hrest : exists z, (if isTy then trim (sliceFrom 5 trimmed) else trimmed) = trim z
                            /\ trim z <> []).
  { destruct isTy eqn:Ety.
    - exists (sliceFrom 5 trimmed). split; [reflexivity|]. now apply rest_nonempty.
    - exists (group 1 m). split; [reflexivity|]. fold trimmed.
      destruct trimmed; [discriminate|discriminate]. }
  destruct Hrest as (z & -> & Hz).
  intros H. injection H as <-. cbn [imported alias].
  destruct (match_ AS_REGEX (trim z)) as [am|] eqn:E.
  - split; [now apply imported_nonempty|]. split; [apply trim_idem|].
    intros a Ha. injection Ha as <-. split; [now apply alias_nonempty|apply trim_idem].
  - split; [assumption|]. split; [apply trim_idem|]. discriminate.
Qed.

End NameFacts.

(** X4: the raw texts of the entries [parseNamedImports] returns, one after
    the other, are the clause without the commas that no specifier precedes;
    a clause that neither starts with a comma nor has two commas in a row is
    given back whole. *)
Theorem parsed_raw_texts (content : jstring) :
  concat (map raw (Parsed.entries (parseNamedImports content)))
  = dropLoneCommas true content
  /\ (startsWith (js ",") content = false ->
      includes (js ",,") content = false ->
      concat (map raw (Parsed.entries (parseNamedImports content))) = content).
Proof.
  assert (E : concat (map raw (Parsed.entries (parseNamedImports content)))
              = dropLoneCommas true content).
  { unfold parseNamedImports. cbn [Parsed.entries]. rewrite map_map.
    rewrite (map_ext _ text parseEntry_raw). apply entry_texts. }
  split; [exact E|]. intros Hs Hi. rewrite E. now apply dropLoneCommas_keeps.
Qed.

Lemma parsed_raw_texts_witness :
  let content := js " type A as B ,  C," ++ [newline] in
  (startsWith (js ",") content = false /\ includes (js ",,") content = false)
  /\ concat (map raw (Parsed.entries (parseNamedImports content))) = content.
Proof.
  intros content.
  assert (Hs : startsWith (js ",") content = false) by reflexivity.
  assert (Hi : includes (js ",,") content = false) by reflexivity.
  split; [now split|].
  exact (proj2 (parsed_raw_texts content) Hs Hi).
Defined.

(** X5: every specifier [parseNamedImports] returns has a name that is not
    empty and has no whitespace at its ends, and so has its alias when it
    has one; the name is in the list of specifiers. *)
Theorem parsed_names_trimmed (content : jstring) (e : NamedImportEntry) (sp : ImportSpec)
        (Hin : In e (Parsed.entries (parseNamedImports content)))
        (Hspec : spec e = Some sp) :
  imported sp <> [] /\ trim (imported sp) = imported sp
  /\ (forall a, alias sp = Some a -> a <> [] /\ trim a = a)
  /\ In (imported sp) (Parsed.specifiers (parseNamedImports content)).
Proof.
  assert (Hs : In (imported sp) (Parsed.specifiers (parseNamedImports content))).
  { unfold parseNamedImports in *. cbn [Parsed.entries Parsed.specifiers] in *.
    apply in_flat_map. exists e. split; [assumption|].
    unfold entrySpecifier. rewrite Hspec. now left. }
  unfold parseNamedImports in Hin. cbn [Parsed.entries] in Hin.
  apply in_map_iff in Hin as (m & <- & _).
  destruct (parseEntry_names m Hspec) as (H1 & H2 & H3). auto.
Qed.

Lemma parsed_names_trimmed_witness :
  let content := js "  type   Foo   as   Bar  , Baz" in
  let e := mkEntry (js "  type   Foo   as   Bar  ,")
             (Some (mkSpec true (js "Foo") (Some (js "Bar"))))
             (Some (js "  ")) (Some (js "  ")) (Some (js ",")) in
  In e (Parsed.entries (parseNamedImports content))
  /\ trim (js "Foo") = js "Foo"
  /\ In (js "Foo") (Parsed.specifiers (parseNamedImports content)).
Proof.
  intros content e.
  assert (Hin : In e (Parsed.entries (parseNamedImports content)))
    by (vm_compute; left; reflexivity).
  split; [exact Hin|].
  pose proof (@parsed_names_trimmed content e (mkSpec true (js "Foo") (Some (js "Bar")))
                Hin eq_refl) as H.
  exact (conj (proj1 (proj2 H)) (proj2 (proj2 (proj2 H)))).
Defined.

(* ================================================================== *)
(** ** The raw pass, inherited keys, and texts without statements *)
(* ================================================================== *)

(** X6: the raw pass applied to its own result changes nothing and adds no
    line. *)
Theorem rawPass_idempotent (st : state) : rawPass (rawPass st) = rawPass st.
Proof.
  destruct (rawPass_clean st) as [Hi Ha].
  unfold rawPass at 1. apply fold_left_fixed. intros [l md] Hl.
  apply rawStep_none. cbn [fst]. apply rawLegacy_absent; [assumption..|].
  unfold rawLegacyStrings. apply in_map_iff. now exists (l, md).
Qed.

(** X7: a parsed specifier whose name is a property every object inherits
    ([constructor], [toString], ...) is found by the lookup in the rename
    table although the table has no rule for it, and is written
    [undefined]; its [type] marker, its alias, its whitespace and its comma
    are kept. *)
Theorem inherited_name_written_undefined
        (content : jstring) (e : NamedImportEntry) (sp : ImportSpec)
        (Hin : In e (Parsed.entries (parseNamedImports content)))
        (Hspec : spec e = Some sp)
        (Hkey : In (imported sp) OBJECT_PROTOTYPE_KEYS) :
  ownProperty COMPONENT_SPECIFIER_RENAMES (imported sp) = None
  /\ buildEntry COMPONENT_SPECIFIER_RENAMES e
     = orEmpty (leadingWhitespace e)
       ++ (if isType sp then js "type " else [])
       ++ js "undefined"
       ++ match alias sp with
          | Some a => js " as " ++ a
          | None => []
          end
       ++ orEmpty (trailingWhitespace e) ++ orEmpty (comma e).
Proof.
  assert (Hown : ownProperty COMPONENT_SPECIFIER_RENAMES (imported sp) = None
                 /\ getProperty COMPONENT_SPECIFIER_RENAMES (imported sp) = Some Inherited).
  { unfold OBJECT_PROTOTYPE_KEYS in Hkey. cbn [map In] in Hkey.
    repeat (destruct Hkey as [<-|Hkey]; [split; reflexivity|]). contradiction. }
  destruct Hown as [Hown Hget]. split; [exact Hown|].
  unfold parseNamedImports in Hin. cbn [Parsed.entries] in Hin.
  apply in_map_iff in Hin as (m & <- & _).
  pose proof (fun a => @parseEntry_alias m sp a Hspec) as Halias.
  unfold buildEntry. rewrite Hspec, Hget. cbn [ruleNewName ruleKeepsAlias].
  f_equal.
  destruct (alias sp) as [[|c a]|].
  - now contradiction (Halias [] eq_refl).
  - cbn [truthy]. destruct (isType sp); cbn [toStr]; rewrite <- ?app_assoc; reflexivity.
  - destruct (isType sp); cbn [toStr]; rewrite <- ?app_assoc; reflexivity.
Qed.

Lemma inherited_name_written_undefined_witness :
  let content := js " Address, type toString as show ," in
  let e := mkEntry (js " type toString as show ,")
             (Some (mkSpec true (js "toString") (Some (js "show"))))
             (Some (js " ")) (Some (js " ")) (Some (js ",")) in
  In e (Parsed.entries (parseNamedImports content))
  /\ buildEntry COMPONENT_SPECIFIER_RENAMES e = js " type undefined as show ,".
Proof.
  intros content e.
  assert (Hin : In e (Parsed.entries (parseNamedImports content)))
    by (vm_compute; right; left; reflexivity).
  assert (Hkey : In (js "toString") OBJECT_PROTOTYPE_KEYS)
    by (vm_compute; do 5 right; left; reflexivity).
  split; [exact Hin|].
  exact (proj2 (@inherited_name_written_undefined content e
                  (mkSpec true (js "toString") (Some (js "show"))) Hin eq_refl Hkey)).
Defined.

Lemma matchAllFrom_keyword_absent (keyword : jstring) (r : regex) (s : jstring) :
  includes keyword s = false ->
  forall i, matchAllFrom (RSeq (RLit keyword) r) i 0 s = [].
Proof.
  induction s as [|c s IH]; intros H i.
  - cbn [includes] in H. cbn [matchAllFrom]. unfold execAt. cbn [run]. now rewrite H.
  - cbn [includes] in H. apply orb_false_iff in H as [Hh Ht].
    cbn [matchAllFrom]. unfold execAt. cbn [run]. rewrite Hh. cbn [flat_map].
    now apply IH.
Qed.

(** X8: a text in which the words [import] and [export] do not occur has no
    statement for the two loops, so [transformContent] gives exactly what
    the raw pass makes of it. *)
Theorem transform_without_statements (content filePath : jstring)
        (Himport : includes (js "import") content = false)
        (Hexport : includes (js "export") content = false) :
  matchAll IMPORT_REGEX content = []
  /\ matchAll EXPORT_FROM_REGEX content = []
  /\ transformContent content filePath
     = mkResult (fst (rawPass (content, []))) (snd (rawPass (content, []))).
Proof.
  assert (Ei : matchAll IMPORT_REGEX content = [])
    by (now apply matchAllFrom_keyword_absent).
  assert (Ee : matchAll EXPORT_FROM_REGEX content = [])
    by (now apply matchAllFrom_keyword_absent).
  split; [exact Ei|]. split; [exact Ee|].
  unfold transformContent, importPass. cbn [fst]. rewrite Ei. cbn [fold_left].
  unfold exportPass. cbn [fst]. rewrite Ee. reflexivity.
Qed.

Lemma transform_without_statements_witness :
  let content := js "See ~~/components/scaffold-eth/Address/Address and ~~/components/scaffold-eth/Input." in
  (includes (js "import") content = false /\ includes (js "export") content = false)
  /\ transformContent content (js "README.md")
     = mkResult (js "See @scaffold-ui/components and @scaffold-ui/components.")
         [rawLine inputPath COMPONENT_TARGET;
          rawLine (js "~~/components/scaffold-eth/Address/Address") COMPONENT_TARGET].
Proof.
  intros content.
  assert (Hi : includes (js "import") content = false) by reflexivity.
  assert (He : includes (js "export") content = false) by reflexivity.
  split; [now split|].
  exact (eq_trans (proj2 (proj2 (transform_without_statements content (js "README.md") Hi He)))
           ltac:(vm_compute; reflexivity)).
Defined.

(* ================================================================== *)
(** ** The directory walk *)
(* ================================================================== *)

Section Walk.
Variable join : jstring -> jstring -> jstring.
Variable extname : jstring -> jstring.

Lemma fold_accumulates (f : list jstring -> Dirent -> list jstring) (entries : list Dirent) :
  Forall (fun e => forall acc, f acc e = acc ++ f [] e) entries ->
  forall acc, fold_left f entries acc = acc ++ fold_left f entries [].
Proof.
  induction 1 as [|e rest He _ IH]; intros acc; cbn [fold_left].
  - now rewrite app_nil_r.
  - rewrite IH, (IH (f [] e)), He, app_assoc. reflexivity.
Qed.

Lemma collectEntry_accumulates (entry : Dirent) :
  forall targetDir acc,
    collectEntry join extname targetDir acc entry
    = acc ++ collectEntry join extname targetDir [] entry.
Proof.
  induction entry as [name|name entries IH|name] using Dirent_tree_ind;
    intros targetDir acc; cbn [collectEntry direntName].
  - destruct (has IGNORED_DIRECTORIES name); [now rewrite app_nil_r|].
    destruct (has SUPPORTED_CODE_EXTENSIONS (getExtension extname name));
      [reflexivity | now rewrite app_nil_r].
  - destruct (has IGNORED_DIRECTORIES name); [now rewrite app_nil_r|].
    apply fold_accumulates.
    eapply Forall_impl; [|exact IH]. intros e He a. apply He.
  - destruct (has IGNORED_DIRECTORIES name); now rewrite app_nil_r.
Qed.

Lemma collect_accumulates (targetDir : jstring) (entries : list Dirent) (acc : list jstring) :
  collectFilesRecursively join extname targetDir entries acc
  = acc ++ collectFilesRecursively join extname targetDir entries [].
Proof.
  unfold collectFilesRecursively. apply fold_accumulates.
  apply Forall_forall. intros e _ a. apply collectEntry_accumulates.
Qed.

Lemma collect_cons (targetDir : jstring) (e : Dirent) (entries : list Dirent) :
  collectFilesRecursively join extname targetDir (e :: entries) []
  = collectEntry join extname targetDir [] e
    ++ collectFilesRecursively join extname targetDir entries [].
Proof.
  unfold collectFilesRecursively. cbn [fold_left].
  apply (collect_accumulates targetDir entries).
Qed.

Lemma collect_In (targetDir : jstring) (entries : list Dirent) (p : jstring) :
  In p (collectFilesRecursively join extname targetDir entries [])
  <-> exists e, In e entries /\ In p (collectEntry join extname targetDir [] e).
Proof.
  induction entries as [|e rest IH].
  - cbn. split; [contradiction | now intros (e & [] & _)].
  - rewrite collect_cons, in_app_iff, IH. split.
    + intros [H|(e' & He' & H)]; [exists e | exists e']; split; auto using in_eq, in_cons.
    + intros (e' & [<-|He'] & H); [now left | right; now exists e'].
Qed.

Lemma collectEntry_sound (entry : Dirent) :
  forall targetDir dirEntries p,
    In entry dirEntries ->
    In p (collectEntry join extname targetDir [] entry) ->
    Collected join extname targetDir dirEntries p.
Proof.
  induction entry as [name|name entries IH|name] using Dirent_tree_ind;
    intros targetDir dirEntries p Hentry Hp; cbn [collectEntry direntName] in Hp.
  - destruct (has IGNORED_DIRECTORIES name) eqn:Hi; [contradiction|].
    destruct (has SUPPORTED_CODE_EXTENSIONS (getExtension extname name)) eqn:Hs;
      [|contradiction].
    destruct Hp as [<-|[]]. now apply Collected_file.
  - destruct (has IGNORED_DIRECTORIES name) eqn:Hi; [contradiction|].
    apply (collect_In (join targetDir name) entries p) in Hp as (e & He & Hp).
    eapply Collected_directory; [exact Hentry | exact Hi |].
    rewrite Forall_forall in IH. now apply (IH e He).
  - destruct (has IGNORED_DIRECTORIES name); contradiction.
Qed.

Lemma collect_complete (targetDir : jstring) (dirEntries : list Dirent) (p : jstring) :
  Collected join extname targetDir dirEntries p ->
  In p (collectFilesRecursively join extname targetDir dirEntries []).
Proof.
  induction 1 as [targetDir dirEntries name Hin Hi Hs
                 |targetDir dirEntries name entries p Hin Hi _ IH].
  - apply collect_In. exists (File name). split; [exact Hin|].
    cbn [collectEntry direntName]. rewrite Hi, Hs. now left.
  - apply collect_In. exists (Directory name entries). split; [exact Hin|].
    cbn [collectEntry direntName]. rewrite Hi. exact IH.
Qed.
End Walk.

(** X9: the walk keeps what the accumulator held, in front, and adds
    exactly the paths of the files with a supported extension that are
    reached through directories none of which has an ignored name; a file
    with an ignored name is left out as well, and entries that are neither
    files nor directories add nothing. *)
Theorem collect_characterised
        (join : jstring -> jstring -> jstring) (extname : jstring -> jstring)
        (targetDir : jstring) (dirEntries : list Dirent) (accumulator : list jstring) :
  collectFilesRecursively join extname targetDir dirEntries accumulator
  = accumulator ++ collectFilesRecursively join extname targetDir dirEntries []
  /\ forall p,
       In p (collectFilesRecursively join extname targetDir dirEntries [])
       <-> Collected join extname targetDir dirEntries p.
Proof.
  split; [apply collect_accumulates|]. intros p. split.
  - intros H. apply collect_In in H as (e & He & H).
    now apply (@collectEntry_sound join extname e).
  - apply collect_complete.
Qed.

(* ================================================================== *)
(** ** One file, and the loop over the files *)
(* ================================================================== *)

Section Files.
Variable relative : jstring -> jstring.

Lemma writeFile_other (files : FileSystem) (p q c : jstring) :
  q <> p -> writeFile files p c q = files q.
Proof.
  intros H. unfold writeFile. apply strEq_neq in H. now rewrite H.
Qed.

Lemma writeFile_same (files : FileSystem) (p c : jstring) :
  writeFile files p c p = Some c.
Proof.
  unfold writeFile. now rewrite strEq_refl.
Qed.

Lemma processFile_unreadable (files : FileSystem) (p : jstring) (dryRun : bool) :
  files p = None -> processFile files p dryRun = None.
Proof.
  intros H. unfold processFile. now rewrite H.
Qed.

Lemma processFile_readable (files : FileSystem) (p c : jstring) (dryRun : bool) :
  files p = Some c ->
  exists files',
    processFile files p dryRun
    = Some (files', fileChanges files p, summary (transformContent c p))
    /\ (forall q, q <> p -> files' q = files q)
    /\ files' p = Some (if dryRun then c else updatedContent (transformContent c p))
    /\ (dryRun = true -> files' = files).
Proof.
  intros H. unfold processFile, fileChanges. rewrite H.
  set (u := updatedContent (transformContent c p)).
  destruct (strEq u c) eqn:E; cbn [negb andb].
  - exists files. split; [reflexivity|]. split; [reflexivity|]. split; [|reflexivity].
    apply strEq_eq in E. rewrite H, E. now destruct dryRun.
  - destruct dryRun; cbn [negb].
    + exists files. now repeat split.
    + exists (writeFile files p u). split; [reflexivity|]. split.
      * intros q Hq. now apply writeFile_other.
      * split; [apply writeFile_same | discriminate].
Qed.




End Files.

(** X10: a dry run leaves every file as it was, whether the loop ends or a
    file cannot be read. *)
Theorem dry_run_writes_nothing
        (relative : jstring -> jstring) (filesToProcess : list jstring)
        (files : FileSystem) (report : Report) :
  filesAfter (processFiles relative true filesToProcess files report) = files.
Proof.
  revert files report.
  induction filesToProcess as [|p rest IH]; intros files report; cbn [processFiles].
  - reflexivity.
  - destruct (files p) as [c|] eqn:Hp.
    + destruct (@processFile_readable files p c true Hp) as (files' & -> & _ & _ & Hsame).
      rewrite IH. now apply Hsame.
    + now rewrite (@processFile_unreadable files p true Hp).
Qed.






